(** * TgMangaTranslator: the translation queue of [main.py]

    A shallow embedding of the job queue, the dispatch loop
    ([translater_worker]), the result store with its reaper and the waiter
    protocol of [CatGirlService.run], followed by the properties proved
    about them.

    Modelling choices.
    - A [pathlib.Path] is the string it prints as, and [path_join] is the
      [/] of pathlib on POSIX paths: empty components and [.] are dropped,
      an absolute name replaces the directory.
    - [translate_tasks] is a Python list, here a [list Path].
    - [translate_result] is a Python dict; its iteration order is insertion
      order and the reaper iterates over it, so it is an association list
      with unique keys, updated in place on an existing key and extended at
      the end on a new one.
    - An [asyncio.Task] is a mutable object shared by the event loop, the
      worker's local variable and the result store: the objects live in
      [loop_tasks] and are referred to by their index.
    - [time.perf_counter()] is a monotone clock; its readings (seconds) are
      binary64 floats, here the rationals they stand for.  A sum of two
      readings is rounded to the nearest binary64, ties to even, as the
      float addition of the source does ([float_add]); comparisons of
      floats are comparisons of the rationals.
    - Coroutines run under cooperative scheduling: a coroutine is resumed at
      the suspension point it stopped at and runs to its next one.  The
      worker is a control state ([wstate]) and [translater_worker], which
      resumes it; a caller is a control state ([cstate]), [run_begin] for
      the start of [CatGirlService.run], [run_resume] for its loops and its
      [try] statement, and [open_translated] for lines 244-245, where the
      [open] of the translated file can raise: which paths it opens is the
      parameter [readable].
    - The backend coroutine [translate_manga_request] is an external
      collaborator: it ends at an arbitrary moment, with a returned path or
      with a raised [Exception]. *)

From Stdlib Require Import String Ascii List ZArith QArith Qround Qpower.
From Stdlib Require Import Bool Arith Lia Lqa Psatz.
From Stdlib Require Import DecimalString DecimalZ DecimalPos Decimal.
Import ListNotations.

Local Close Scope Q_scope.
Local Open Scope string_scope.
Local Open Scope list_scope.

(** ** Paths and module constants (main.py lines 22-25) *)

(** A [pathlib.Path] is the string it prints as: its root ([/], [//] or
    none) and its components joined by [/], and [.] when it has neither. *)
Definition Path := string.

(** [s.split("/")] *)
Fixpoint split_slash (s : string) : list string :=
  match s with
  | EmptyString => [EmptyString]
  | String c r =>
      if Ascii.eqb c "/" then EmptyString :: split_slash r
      else match split_slash r with
           | x :: l => String c x :: l
           | [] => [String c EmptyString]
           end
  end.

(** The components [pathlib] keeps of a string: the empty ones and [.] are
    dropped, [..] stays. *)
Definition parts (s : string) : list string :=
  filter (fun x => negb (String.eqb x "" || String.eqb x ".")) (split_slash s).

Definition starts_with_slash (s : string) : bool :=
  match s with
  | String c _ => Ascii.eqb c "/"
  | EmptyString => false
  end.

(** The root of a POSIX path: exactly two leading slashes are kept, one or
    three and more are one. *)
Definition root_of (s : string) : string :=
  match s with
  | String a r =>
      if Ascii.eqb a "/" then
        match r with
        | String b r' =>
            if Ascii.eqb b "/" then
              if starts_with_slash r' then "/" else "//"
            else "/"
        | EmptyString => "/"
        end
      else ""
  | EmptyString => ""
  end.

(** [str(path)] *)
Definition render (root : string) (items : list string) : Path :=
  match root, items with
  | EmptyString, [] => "."
  | _, _ => (root ++ String.concat "/" items)%string
  end.

(** [Path(s)] *)
Definition path_of_string (s : string) : Path := render (root_of s) (parts s).

(** [dir / name]: an absolute [name] replaces [dir]. *)
Definition path_join (dir : Path) (name : string) : Path :=
  if starts_with_slash name then path_of_string name
  else render (root_of dir) (parts dir ++ parts name).

Definition SAVE_IMAGE_PATH : Path := path_of_string "./saved".
Definition TRANSLATED_IMAGE : Path := path_of_string "./translated".
Definition TRANSLATE_RESULT_TIMEOUT : Q := 600.

(** ** Python containers *)

(** [list.index(src)]: the position of the first occurrence, [None] for the
    [ValueError] that [translate_task_index] turns into [None]. *)
Fixpoint list_index (src : Path) (l : list Path) : option nat :=
  match l with
  | [] => None
  | x :: r => if String.eqb x src then Some 0%nat
              else option_map S (list_index src r)
  end.

Section Dict.
Variable V : Type.

Definition dict := list (Path * V).

(** [d[k]], [None] standing for [KeyError]. *)
Fixpoint dict_get (k : Path) (d : dict) : option V :=
  match d with
  | [] => None
  | (k', v) :: r => if String.eqb k' k then Some v else dict_get k r
  end.

(** [k in d] *)
Definition dict_mem (k : Path) (d : dict) : bool :=
  match dict_get k d with Some _ => true | None => false end.

(** [d[k] = v] *)
Fixpoint dict_set (k : Path) (v : V) (d : dict) : dict :=
  match d with
  | [] => [(k, v)]
  | (k', v') :: r =>
      if String.eqb k' k then (k', v) :: r else (k', v') :: dict_set k v r
  end.

(** [del d[k]] on a present key *)
Definition dict_del (k : Path) (d : dict) : dict :=
  filter (fun kv => negb (String.eqb (fst kv) k)) d.

Definition dict_keys (d : dict) : list Path := map fst d.
End Dict.

Arguments dict_get {V} k d.
Arguments dict_mem {V} k d.
Arguments dict_set {V} k v d.
Arguments dict_del {V} k d.
Arguments dict_keys {V} d.

(** ** asyncio tasks *)

(** How the coroutine of a task ended: with its return value, or with a
    raised instance of [Exception] (named by its class), which is what the
    handlers of lines 81 and 240 catch. *)
Inductive outcome : Type :=
| Returned (translated : Path)
| Raised (exc : string).

Record Task : Type := mkTask {
  coro_src : Path;                 (* the argument of translate_manga_request *)
  task_result : option outcome     (* None while the coroutine has not ended *)
}.

(** [task.done()] *)
Definition done (t : Task) : bool :=
  match task_result t with Some _ => true | None => false end.

Definition handle := nat.

(** [handle_done tasks h]: [task.done()] through the reference [h]. *)
Definition handle_done (tasks : list Task) (h : handle) : bool :=
  match nth_error tasks h with Some t => done t | None => false end.

(** [asyncio.create_task(translate_manga_request(photo))]: a new task object,
    not started yet. *)
Definition create_task (photo : Path) (tasks : list Task) : list Task * handle :=
  (tasks ++ [mkTask photo None], length tasks).

(** The coroutine of task [h] ends with [o]; a task that has ended keeps its
    result. *)
Fixpoint finish_task (h : handle) (o : outcome) (tasks : list Task) : list Task :=
  match tasks, h with
  | [], _ => []
  | t :: r, O =>
      (if done t then t else mkTask (coro_src t) (Some o)) :: r
  | t :: r, S h' => t :: finish_task h' o r
  end.

(** ** Clock readings: binary64 floats *)

Definition pow2 (e : Z) : Q := Qpower 2 e.

(** The integer part of the base 2 logarithm of a positive rational. *)
Definition ilog2 (x : Q) : Z :=
  let k := (Z.log2 (Qnum x) - Z.log2 (Zpos (Qden x)))%Z in
  if Qle_bool (pow2 k) x then k else (k - 1)%Z.

(** The nearest integer, the even one of the two when halfway. *)
Definition rne (q : Q) : Z :=
  let n := Qfloor q in
  match Qcompare (q - inject_Z n) (1 # 2) with
  | Lt => n
  | Gt => (n + 1)%Z
  | Eq => if Z.even n then n else (n + 1)%Z
  end.

(** The exponent of the last place of the binary64 values next to [x]:
    53 bits of significand, the subnormal values from [2 ^ -1074] up. *)
Definition ulp_exponent (x : Q) : Z := Z.max (ilog2 x - 52) (-1074).

Definition fl_pos (x : Q) : Q :=
  Qred (inject_Z (rne (x / pow2 (ulp_exponent x))) * pow2 (ulp_exponent x)).

(** The binary64 value nearest to [x], ties to even, for [x] below the
    overflow threshold. *)
Definition fl (x : Q) : Q :=
  match Qcompare 0 x with
  | Lt => fl_pos x
  | Gt => (- fl_pos (- x))%Q
  | Eq => 0
  end.

(** [a + b] on floats. *)
Definition float_add (a b : Q) : Q := fl (a + b).

Arguments fl : simpl never.
Arguments float_add : simpl never.

(** The largest finite binary64. *)
Definition max_float : Q := (inject_Z (2 ^ 53 - 1) * pow2 971)%Q.

(** A significand of at most 53 bits and an exponent of [-1074] at least:
    the finite non-negative binary64 values are of this form. *)
Definition binary64 (f : Q) : Prop :=
  exists m e : Z,
    (0 <= m <= 2 ^ 53)%Z /\ (-1074 <= e)%Z /\ (f == inject_Z m * pow2 e)%Q.

(** The next reading of the clock, [d] seconds after [now]: the float
    nearest to the sum; a negative [d] or a reading past the largest float
    is not a reading of this clock. *)
Definition advance (now d : Q) : Q :=
  let r := float_add now d in
  if Qle_bool 0 d && Qle_bool r max_float then r else now.

Arguments advance : simpl never.

(** ** The shared state and the worker (main.py lines 33-35, 58-82) *)

(** Where [translater_worker] is suspended. *)
Inductive wstate : Type :=
| WSleep                                  (* line 60, top of the loop *)
| WPoll (photo : Path) (task : handle)    (* line 66, waiting for task.done() *)
| WReap (timeout_photos : list Path)      (* line 76, the remaining photos, the current one first *)
| WAwait (task : handle) (rest : list Path) (* line 80, on a task that has not ended *)
| WDead.                                  (* an exception left the coroutine *)

Record sys : Type := mkSys {
  translate_tasks : list Path;
  translate_result : dict (handle * Q);
  loop_tasks : list Task;
  perf_counter : Q;
  worker : wstate
}.

Definition init : sys := mkSys [] [] [] 0 WSleep.

(** [add_translate_task] (lines 109-111): the new list and the returned index. *)
Definition add_translate_task (src : Path) (tasks : list Path) : list Path * nat :=
  let tasks' := tasks ++ [src] in
  (tasks', (length tasks' - 1)%nat).

(** [translate_task_index] (lines 114-118). *)
Definition translate_task_index (src : Path) (tasks : list Path) : option nat :=
  list_index src tasks.

(** [x < y] on clock readings. *)
Definition Qltb (x y : Q) : bool := negb (Qle_bool y x).

(** The list comprehension of lines 70-74. *)
Definition timeout_photos_of (result : dict (handle * Q)) (now : Q) : list Path :=
  map fst
    (filter (fun kv => Qltb (float_add (snd (snd kv)) TRANSLATE_RESULT_TIMEOUT) now)
       result).

(** The [for] loop of line 75 moves to its next item, which starts with the
    sleep of line 76; when no item is left the [while] loop starts over with
    the sleep of line 60. *)
Definition for_next (rest : list Path) : wstate :=
  match rest with
  | [] => WSleep
  | _ :: _ => WReap rest
  end.

(** The worker is resumed and runs to its next suspension point. *)
Definition translater_worker (s : sys) : sys :=
  match worker s with
  | WSleep =>
      match translate_tasks s with
      | [] => s                                           (* line 62 *)
      | photo :: rest =>                                  (* line 63 *)
          let (tasks', task) := create_task photo (loop_tasks s) in
          mkSys rest (translate_result s) tasks' (perf_counter s)
                (WPoll photo task)
      end
  | WPoll photo task =>
      if handle_done (loop_tasks s) task then
        let now := perf_counter s in                      (* line 67 *)
        let result' := dict_set photo (task, now) (translate_result s) in
        mkSys (translate_tasks s) result' (loop_tasks s) (perf_counter s)
              (for_next (timeout_photos_of result' now))
      else s                                              (* line 66 *)
  | WReap [] =>                         (* an exhausted loop: as [for_next []] *)
      mkSys (translate_tasks s) (translate_result s) (loop_tasks s)
            (perf_counter s) WSleep
  | WReap (timeout_photo :: rest) =>
      match dict_get timeout_photo (translate_result s) with
      | None =>                                           (* KeyError, line 77 *)
          mkSys (translate_tasks s) (translate_result s) (loop_tasks s)
                (perf_counter s) WDead
      | Some (task, _) =>
          let result' := dict_del timeout_photo (translate_result s) in
          mkSys (translate_tasks s) result' (loop_tasks s) (perf_counter s)
                (if handle_done (loop_tasks s) task
                 then for_next rest                       (* lines 79-82 *)
                 else WAwait task rest)
      end
  | WAwait task rest =>
      if handle_done (loop_tasks s) task
      then mkSys (translate_tasks s) (translate_result s) (loop_tasks s)
                 (perf_counter s) (for_next rest)
      else s
  | WDead => s
  end.

(** ** Schedules *)

(** What the event loop and the environment can do between two suspension
    points. *)
Inductive action : Type :=
| Submit (src : Path)                  (* a caller runs add_translate_task(src) *)
| Worker                               (* translater_worker is resumed *)
| Finish (task : handle) (o : outcome) (* the coroutine of a backend task ends *)
| Tick (d : Q).                        (* the clock is read d seconds later *)

Definition step (a : action) (s : sys) : sys :=
  match a with
  | Submit src =>
      mkSys (fst (add_translate_task src (translate_tasks s)))
            (translate_result s) (loop_tasks s) (perf_counter s) (worker s)
  | Worker => translater_worker s
  | Finish task o =>
      mkSys (translate_tasks s) (translate_result s)
            (finish_task task o (loop_tasks s)) (perf_counter s) (worker s)
  | Tick d =>
      mkSys (translate_tasks s) (translate_result s) (loop_tasks s)
            (advance (perf_counter s) d) (worker s)
  end.

Fixpoint exec (l : list action) (s : sys) : sys :=
  match l with
  | [] => s
  | a :: l' => exec l' (step a s)
  end.

(** The paths handed to [add_translate_task] along a schedule, in order. *)
Fixpoint submissions (l : list action) : list Path :=
  match l with
  | [] => []
  | Submit src :: l' => src :: submissions l'
  | _ :: l' => submissions l'
  end.

(** The paths [translate_manga_request] was called on, in order: a task
    object is created for each call and none is ever dropped. *)
Definition dispatched (s : sys) : list Path := map coro_src (loop_tasks s).

(** The backend calls in flight: the tasks created and not ended. *)
Definition in_flight (s : sys) : list Task :=
  filter (fun t => negb (done t)) (loop_tasks s).

(** ** Submission validation: [ChatMessageReader.save_photo] (lines 131-153) *)

Record PhotoSize : Type := mkPhotoSize { file_id : string }.
Record File : Type := mkFile { file_size : option Z }.
Record User : Type := mkUser { username : option string }.

Record Message : Type := mkMessage {
  from_user : option User;
  message_id : Z;
  chat_id : Z;
  photo : list PhotoSize
}.

(** The Telegram side as [save_photo] sees it: [bot.get_file] (a failed
    request raises) and whether [file.download_to_drive] succeeds. *)
Record Bot : Type := mkBot {
  get_file : string -> option File;
  download_to_drive : Path -> bool
}.

Inductive save_error : Type :=
| AssertionError
| TelegramError
| PhotoMissing (mid : Z)
| PhotoTooBig (size : Z)
| UnknownError.

(** [str(n)] for a Python int. *)
Definition str_of_int (n : Z) : string := NilZero.string_of_int (Z.to_int n).

(** [str(username)]: the name, or [None] printed. *)
Definition str_of_username (u : option string) : string :=
  match u with Some name => name | None => "None" end.

(** [sized_photos[-1]] *)
Fixpoint last_item {A : Type} (l : list A) : option A :=
  match l with
  | [] => None
  | [x] => Some x
  | _ :: r => last_item r
  end.

(** The condition of line 145, [file.file_size and file.file_size > 1024 * 1024]
    ([None] and [0] are falsy): the size that is refused, if it is. *)
Definition oversized (size : option Z) : option Z :=
  match size with
  | None => None
  | Some n => if (negb (n =? 0) && (1024 * 1024 <? n))%Z then Some n else None
  end.

(** The file name of line 148. *)
Definition save_file_of (message : Message) (user : User) : string :=
  (str_of_username (username user) ++ "_" ++ str_of_int (chat_id message)
     ++ "_" ++ str_of_int (message_id message) ++ ".jpg")%string.

Definition save_path_of (message : Message) (user : User) : Path :=
  path_join SAVE_IMAGE_PATH (save_file_of message user).

Definition save_photo (bot : Bot) (message : Message) : save_error + Path :=
  match from_user message with
  | None => inl AssertionError                             (* line 132 *)
  | Some user =>
      match last_item (photo message) with
      | None => inl (PhotoMissing (message_id message))    (* line 140 *)
      | Some sized =>
          match get_file bot (file_id sized) with          (* line 144 *)
          | None => inl TelegramError
          | Some file =>
              match oversized (file_size file) with
              | Some n => inl (PhotoTooBig n)              (* line 146 *)
              | None =>
                  let save_path := save_path_of message user in
                  if download_to_drive bot save_path       (* lines 149-153 *)
                  then inr save_path
                  else inl UnknownError
              end
          end
      end
  end.

(** ** The waiter: [CatGirlService.run] (lines 205-245) *)

(** The texts sent to the user, by meaning. *)
Inductive text : Type :=
| NoPhoto           (* line 210 *)
| TooBig            (* line 213 *)
| SaveFailed        (* line 216 *)
| NotOnDisk         (* line 219 *)
| Queued (idx : nat) (* line 223: queued, idx tasks ahead *)
| Started           (* lines 225 and 229: processing has started *)
| Ahead (idx : nat) (* line 233: now idx tasks ahead *)
| Failed.           (* line 242: the translation failed *)

(** The calls made on the [ResultReplyer]. *)
Inductive reply : Type :=
| reply_message (m : text)
| edit_or_reply_message (m : text)
| delete_last_message
| reply_photo (translated_file_path : Path).

(** Where [run] is suspended, with its live local variables. *)
Inductive cstate : Type :=
| CQueue (saved_file_path : Path) (idx : nat) (* about to test [while idx], line 226 *)
| CResult (saved_file_path : Path)            (* about to test the condition of line 234 *)
| CFetch (saved_file_path : Path)             (* after line 236, entering the [try] *)
| CAwait (task : handle)                      (* line 239, on a task that has not ended *)
| COpen (translated_file_path : Path)         (* past the [try], about to run line 244 *)
| CEnd                                        (* [run] returned *)
| CRaised.                                    (* an exception left [run] *)

(** Lines 206-225: validation, enqueue and the first message. *)
Definition run_begin (saved : save_error + Path) (on_disk : Path -> bool)
    (s : sys) : sys * cstate * list reply :=
  match saved with
  | inl (PhotoMissing _) => (s, CEnd, [reply_message NoPhoto])
  | inl (PhotoTooBig _) => (s, CEnd, [reply_message TooBig])
  | inl UnknownError => (s, CEnd, [reply_message SaveFailed])
  | inl AssertionError | inl TelegramError => (s, CRaised, [])
  | inr saved_file_path =>
      if negb (on_disk saved_file_path) then
        (s, CEnd, [reply_message NotOnDisk])
      else
        let (tasks', idx) := add_translate_task saved_file_path (translate_tasks s) in
        (mkSys tasks' (translate_result s) (loop_tasks s) (perf_counter s) (worker s),
         CQueue saved_file_path idx,
         [edit_or_reply_message (if (idx =? 0)%nat then Started else Queued idx)])
  end.

(** [await task] on the task behind [h], to the end of the [try] statement
    (lines 239-243): a task that returned leaves the caller in front of
    line 244 with the path it returned. *)
Definition await_result (tasks : list Task) (h : handle) : cstate * list reply :=
  match nth_error tasks h with
  | Some (mkTask _ (Some (Returned translated_file_path))) =>
      (COpen translated_file_path, [])
  | Some (mkTask _ (Some (Raised _))) => (CEnd, [reply_message Failed])
  | _ => (CAwait h, [])
  end.

(** The test of line 234 and what follows it up to the next suspension. *)
Definition result_poll (s : sys) (saved_file_path : Path) : cstate * list reply :=
  if dict_mem saved_file_path (translate_result s)
  then (CFetch saved_file_path, [delete_last_message])     (* line 236 *)
  else (CResult saved_file_path, []).                      (* line 235 *)

(** The caller is resumed and runs one iteration of the loop it is in, or
    the [try] statement of lines 237-243.  In the source an iteration of the
    position loop that sends nothing does not suspend, so the next one
    follows at once on the same shared state; here any step may come between
    two iterations, which covers that case.  What is left of [run] in front
    of line 244 does not read the shared state: it is [open_translated]. *)
Definition run_resume (s : sys) (c : cstate) : cstate * list reply :=
  match c with
  | CQueue saved_file_path idx =>
      if (idx =? 0)%nat then result_poll s saved_file_path
      else
        match translate_task_index saved_file_path (translate_tasks s) with
        | None | Some O =>                                 (* lines 228-230 *)
            (CResult saved_file_path, [edit_or_reply_message Started])
        | Some new_idx =>
            if (idx =? new_idx)%nat then (CQueue saved_file_path idx, [])
            else (CQueue saved_file_path new_idx,          (* lines 231-233 *)
                  [edit_or_reply_message (Ahead new_idx)])
        end
  | CResult saved_file_path => result_poll s saved_file_path
  | CFetch saved_file_path =>
      match dict_get saved_file_path (translate_result s) with
      | None => (CEnd, [reply_message Failed])             (* KeyError, lines 240-243 *)
      | Some (task, _) => await_result (loop_tasks s) task
      end
  | CAwait task => await_result (loop_tasks s) task
  | COpen translated_file_path => (COpen translated_file_path, [])
  | CEnd => (CEnd, [])
  | CRaised => (CRaised, [])
  end.


(** Lines 244-245, after the [try] statement and outside it:
    [open(translated_file_path, "rb")], then [reply_photo] on the open file.
    [readable] tells which paths [open] opens; on any other it raises, and
    the exception leaves [run] with nothing more sent. *)
Definition open_translated (readable : Path -> bool) (r : cstate * list reply)
    : cstate * list reply :=
  match fst r with
  | COpen translated_file_path =>
      if readable translated_file_path
      then (CEnd, snd r ++ [reply_photo translated_file_path])
      else (CRaised, snd r)
  | _ => r
  end.

(** A resumption of the caller to its end or its next suspension: nothing
    suspends between the [await] of a task that has ended and line 244. *)
Definition run_resume_open (readable : Path -> bool) (s : sys) (c : cstate)
    : cstate * list reply :=
  open_translated readable (run_resume s c).

(** [caller_run] with the files that [open] finds. *)
Fixpoint caller_run_open (readable : Path -> bool) (snapshots : list sys)
    (c : cstate) : cstate * list reply :=
  match snapshots with
  | [] => (c, [])
  | s :: rest =>
      let (c', out) := run_resume_open readable s c in
      let (c'', out') := caller_run_open readable rest c' in
      (c'', out ++ out')
  end.

(** Whether the iteration that [run_resume] runs ends at a suspension
    point: a call on the replyer (a network request) or the [asyncio.sleep]
    of line 235; past the [try] statement the call is the [reply_photo] of
    [open_translated], unless [open] raises.  [await translate_task_index(...)] runs the coroutine
    inline and suspends nowhere, so an iteration of the position loop that
    finds the position unchanged goes straight into the next one. *)
Definition suspends (s : sys) (c : cstate) : bool :=
  match c with
  | CQueue saved_file_path idx =>
      if (idx =? 0)%nat then true
      else
        match translate_task_index saved_file_path (translate_tasks s) with
        | None | Some O => true
        | Some new_idx => negb (idx =? new_idx)%nat
        end
  | _ => true
  end.

(** The caller runs from where it is to its next suspension point; no other
    coroutine runs meanwhile, so the shared state stays [s].  [None] when
    [fuel] iterations do not reach one. *)
Fixpoint caller_slice (fuel : nat) (s : sys) (c : cstate)
    : option (cstate * list reply) :=
  match fuel with
  | O => None
  | S fuel' =>
      if suspends s c then Some (run_resume s c)
      else caller_slice fuel' s (fst (run_resume s c))
  end.

(** The states a schedule passes through, the first one included. *)
Fixpoint states (l : list action) (s : sys) : list sys :=
  match l with
  | [] => [s]
  | a :: l' => s :: states l' (step a s)
  end.

(** ** The start of [run] and the update handler (lines 205-225, 248-259) *)

(** [CatGirlService.run] from its first line to its first message: the
    reader's [save_photo], then [run_begin]. *)
Definition run_start (bot : Bot) (message : Message) (on_disk : Path -> bool)
    (s : sys) : sys * cstate * list reply :=
  run_begin (save_photo bot message) on_disk s.

Module Handlers.
(** The handler [save_photo(update, context)] of lines 248-259, up to the
    first suspension of [service.run()]; [None] is an update without a
    message, on which the assertion of line 252 fails. *)
Definition save_photo (bot : Bot) (on_disk : Path -> bool)
    (update_message : option Message) (s : sys) : sys * cstate * list reply :=
  match update_message with
  | None => (s, CRaised, [])
  | Some message => run_start bot message on_disk s
  end.
End Handlers.

(** ** The backend request: [translate_manga_request] (lines 85-106) *)

(** [c in s] on the characters of a string. *)
Fixpoint has_char (c : ascii) (s : string) : bool :=
  match s with
  | EmptyString => false
  | String x r => Ascii.eqb x c || has_char c r
  end.

(** [src.name]: the last component of a path, the empty string when it has
    none. *)
Definition name (src : Path) : string := last (parts src) EmptyString.

(** Line 87. *)
Definition translated_path_of (src : Path) : Path :=
  path_join TRANSLATED_IMAGE (name src).

(** What the code reads of an HTTP response: nothing of its status, the
    [task_id] member of its JSON body ([inl] names the exception raised by
    [resp.json()["task_id"]]), and its bytes. *)
Record Response : Type := mkResponse {
  status_code : Z;
  task_id : string + string;
  content : string
}.

(** The world [translate_manga_request] runs in; [inl] and [Some] name the
    exception a step raises. *)
Record MangaApi : Type := mkMangaApi {
  open_src : Path -> option string;          (* open(src, "rb"), line 91 *)
  post_run : Path -> string + Response;      (* POST /run, lines 92-97 *)
  get_result : string -> string + Response   (* GET /result/<id>, lines 99-101 *)
}.

(** How the coroutine ends, and the file it has written, if any. *)
Definition translate_manga_request (api : MangaApi) (src : Path)
    : outcome * option (Path * string) :=
  let translated_path := translated_path_of src in
  match open_src api src with
  | Some exc => (Raised exc, None)
  | None =>
      match post_run api src with
      | inl exc => (Raised exc, None)
      | inr resp =>
          match task_id resp with
          | inl exc => (Raised exc, None)
          | inr photo_task_id =>
              match get_result api photo_task_id with
              | inl exc => (Raised exc, None)
              | inr resp' =>
                  (Returned translated_path,
                   Some (translated_path, content resp'))
              end
          end
      end
  end.

(** ** The replies as Telegram calls: [MessageReplyer] (lines 170-197) *)

(** The calls a replyer makes on the bot and on the messages the bot
    returned to it, in order.  A text message it sent is referred to by the
    position of its [send_message] in this log. *)
Inductive bot_call : Type :=
| send_message (chat : Z) (m : text) (reply_to_message_id : Z)
| send_photo (chat : Z) (photo : Path) (reply_to_message_id : Z)
| edit_text (sent : nat) (m : text)
| delete (sent : nat).

Module MessageReplyer.

Record t : Type := mk {
  chat_id : Z;
  message_id : Z;
  last_text_message : option nat
}.

(** [__init__] (lines 171-175) *)
Definition init (chat_id message_id : Z) : t := mk chat_id message_id None.

(** Lines 177-180. *)
Definition reply_message (m : text) (r : t) (log : list bot_call)
    : t * list bot_call :=
  (mk (chat_id r) (message_id r) (Some (length log)),
   log ++ [send_message (chat_id r) m (message_id r)]).

(** Lines 182-185. *)
Definition reply_photo (photo : Path) (r : t) (log : list bot_call)
    : t * list bot_call :=
  (r, log ++ [send_photo (chat_id r) photo (message_id r)]).

(** Lines 187-191. *)
Definition edit_or_reply_message (m : text) (r : t) (log : list bot_call)
    : t * list bot_call :=
  match last_text_message r with
  | None => reply_message m r log
  | Some sent => (r, log ++ [edit_text sent m])
  end.

(** Lines 193-197. *)
Definition delete_last_message (r : t) (log : list bot_call)
    : t * list bot_call :=
  match last_text_message r with
  | None => (r, log)
  | Some sent => (mk (chat_id r) (message_id r) None, log ++ [delete sent])
  end.

End MessageReplyer.

(** One call on the replyer, and a sequence of them. *)
Definition perform (c : reply) (r : MessageReplyer.t) (log : list bot_call)
    : MessageReplyer.t * list bot_call :=
  match c with
  | reply_message m => MessageReplyer.reply_message m r log
  | edit_or_reply_message m => MessageReplyer.edit_or_reply_message m r log
  | delete_last_message => MessageReplyer.delete_last_message r log
  | reply_photo photo => MessageReplyer.reply_photo photo r log
  end.

Fixpoint perform_all (cs : list reply) (r : MessageReplyer.t)
    (log : list bot_call) : MessageReplyer.t * list bot_call :=
  match cs with
  | [] => (r, log)
  | c :: rest => let (r', log') := perform c r log in perform_all rest r' log'
  end.

Definition text_eqb (a b : text) : bool :=
  match a, b with
  | NoPhoto, NoPhoto | TooBig, TooBig | SaveFailed, SaveFailed
  | NotOnDisk, NotOnDisk | Started, Started | Failed, Failed => true
  | Queued i, Queued j | Ahead i, Ahead j => (i =? j)%nat
  | _, _ => false
  end.

(** What the call at position [i] of the log does to the text shown by the
    message sent at position [sent]; [None] is a message not sent yet or
    deleted. *)
Definition shown_after (i sent : nat) (c : bot_call) (cur : option text)
    : option text :=
  match c with
  | send_message _ m _ => if (i =? sent)%nat then Some m else cur
  | send_photo _ _ _ => cur
  | edit_text k m =>
      if (k =? sent)%nat
      then match cur with Some _ => Some m | None => None end
      else cur
  | delete k => if (k =? sent)%nat then None else cur
  end.

Fixpoint shown_from (i sent : nat) (log : list bot_call) (cur : option text)
    : option text :=
  match log with
  | [] => cur
  | c :: rest => shown_from (S i) sent rest (shown_after i sent c cur)
  end.

(** The text the message sent at position [sent] shows after [log]. *)
Definition shown (sent : nat) (log : list bot_call) : option text :=
  shown_from 0 sent log None.

(** A call that Telegram has no reason to refuse after [log]: an edit or a
    deletion is of a message that is shown, and with [strict] an edit also
    changes the text. *)
Definition call_ok (strict : bool) (log : list bot_call) (c : bot_call) : bool :=
  match c with
  | edit_text k m =>
      match shown k log with
      | Some m0 => negb (strict && text_eqb m0 m)
      | None => false
      end
  | delete k =>
      match shown k log with Some _ => true | None => false end
  | _ => true
  end.

Fixpoint calls_ok (strict : bool) (before calls : list bot_call) : bool :=
  match calls with
  | [] => true
  | c :: rest => call_ok strict before c && calls_ok strict (before ++ [c]) rest
  end.

(** The calls of one [run] that got as far as the pending list: the first
    message, then what the caller sends when resumed in each of
    [snapshots], on a new replyer. *)
Definition run_calls (readable : Path -> bool) (chat mid : Z)
    (saved_file_path : Path) (s0 : sys) (snapshots : list sys)
    : cstate * MessageReplyer.t * list bot_call :=
  let '(_, c1, out1) := run_begin (inr saved_file_path) (fun _ => true) s0 in
  let (c2, out2) := caller_run_open readable snapshots c1 in
  (c2, fst (perform_all (out1 ++ out2) (MessageReplyer.init chat mid) []),
   snd (perform_all (out1 ++ out2) (MessageReplyer.init chat mid) [])).

(** The progress message and its edits. *)
Definition progress_calls (chat mid : Z) (first : text) (later : list text)
    : list bot_call :=
  send_message chat first mid :: map (edit_text 0) later.

(** ** Vocabulary of the properties *)

(** A path is known to the system: pending, in the worker's hands (its
    backend call made and its result not stored yet), or in the result
    store. *)
Definition in_worker_hands (src : Path) (s : sys) : bool :=
  match worker s with
  | WPoll photo _ => String.eqb photo src
  | _ => false
  end.

Definition pending (src : Path) (s : sys) : bool :=
  existsb (String.eqb src) (translate_tasks s).

Definition known (src : Path) (s : sys) : bool :=
  pending src s || in_worker_hands src s || dict_mem src (translate_result s).

(** The callers' side of the data model: a path is submitted only while it
    is not known to the system.  [save_photo] names the file after the user,
    the chat and the message, so a path is submitted once per message. *)
Fixpoint unique_while_known (l : list action) (s : sys) : bool :=
  match l with
  | [] => true
  | a :: l' =>
      match a with
      | Submit src => negb (known src s)
      | _ => true
      end && unique_while_known l' (step a s)
  end.

(** What the worker's control state promises about the shared state. *)
Definition worker_ok (s : sys) : Prop :=
  match worker s with
  | WSleep => True
  | WPoll photo task =>
      exists r, nth_error (loop_tasks s) task = Some (mkTask photo r)
  | WReap l =>
      l <> [] /\ NoDup l
      /\ forall q, In q l ->
           exists h t, dict_get q (translate_result s) = Some (h, t)
                       /\ (t + TRANSLATE_RESULT_TIMEOUT < perf_counter s)%Q
  | WAwait _ _ => False
  | WDead => False
  end.

Record consistent (s : sys) : Prop := mkConsistent {
  (* the keys of the dict are unique *)
  keys_unique : NoDup (dict_keys (translate_result s));
  (* a stored task is the ended backend call on its key, and was stored at a
     past reading of the clock *)
  stored_ended : forall p h t,
      dict_get p (translate_result s) = Some (h, t) ->
      (exists o, nth_error (loop_tasks s) h = Some (mkTask p (Some o)))
      /\ (t <= perf_counter s)%Q;
  (* a task that has not ended is the one the worker polls *)
  one_running : forall h,
      (h < length (loop_tasks s))%nat ->
      handle_done (loop_tasks s) h = false ->
      exists photo, worker s = WPoll photo h;
  worker_fine : worker_ok s;
  (* the clock reads a float *)
  clock_float : binary64 (perf_counter s)
}.

(** How many times a schedule resumes the worker. *)
Fixpoint resumptions (l : list action) : nat :=
  match l with
  | [] => 0
  | Worker :: l' => S (resumptions l')
  | _ :: l' => resumptions l'
  end.

(** An entry stamped [T] or later. *)
Definition stored_since (p : Path) (T : Q) (s : sys) : Prop :=
  exists h t, dict_get p (translate_result s) = Some (h, t) /\ (T <= t)%Q.

(** A bound on the resumptions the worker needs, from where it is, before it
    is back at line 63 taking the head of the pending list: one from its
    sleep, one per photo left to reap plus one, and from its poll of a task
    that has ended one to store the result, one per entry it may then have
    to reap, and one more. *)
Definition resumptions_to_dispatch (s : sys) : nat :=
  match worker s with
  | WSleep => 1
  | WPoll _ _ => length (translate_result s) + 3
  | WReap r => length r + 1
  | WAwait _ _ | WDead => 0
  end.

(** What the callers' discipline buys: a pending path is pending once, and
    is neither stored nor in the worker's hands; the path in the worker's
    hands is not stored. *)
Record separated (s : sys) : Prop := mkSeparated {
  pending_once : NoDup (translate_tasks s);
  pending_only : forall p,
      In p (translate_tasks s) ->
      dict_mem p (translate_result s) = false /\ in_worker_hands p s = false;
  polled_not_stored : forall photo task,
      worker s = WPoll photo task ->
      dict_mem photo (translate_result s) = false
}.

(** What holds of a caller past its first message, its replyer and the
    calls made so far. *)
Definition run_inv (readable : Path -> bool) (chat mid : Z) (c : cstate)
    (r : MessageReplyer.t) (log : list bot_call) : Prop :=
  MessageReplyer.chat_id r = chat /\ MessageReplyer.message_id r = mid
  /\ calls_ok true [] log = true
  /\ exists first later,
       match c with
       | CQueue _ idx =>
           log = progress_calls chat mid first later
           /\ MessageReplyer.last_text_message r = Some 0%nat
           /\ ((idx = 0%nat /\ shown 0 log = Some Started)
               \/ (idx <> 0%nat
                   /\ (shown 0 log = Some (Queued idx)
                       \/ shown 0 log = Some (Ahead idx))))
       | CResult _ =>
           log = progress_calls chat mid first later
           /\ MessageReplyer.last_text_message r = Some 0%nat
           /\ shown 0 log = Some Started
       | CFetch _ | CAwait _ =>
           log = progress_calls chat mid first later ++ [delete 0]
           /\ MessageReplyer.last_text_message r = None
       | COpen _ => False
       | CEnd =>
           exists final,
             log = progress_calls chat mid first later ++ [delete 0; final]
             /\ (final = send_message chat Failed mid
                 \/ exists translated_file_path,
                      readable translated_file_path = true
                      /\ final = send_photo chat translated_file_path mid)
       | CRaised =>
           log = progress_calls chat mid first later ++ [delete 0]
           /\ MessageReplyer.last_text_message r = None
       end.

(** A schedule made of resumptions of the worker and of backend calls
    ending with [o]: nothing is submitted and no time passes. *)
Definition calm (o : outcome) (l : list action) : Prop :=
  Forall (fun a => a = Worker \/ exists task, a = Finish task o) l.

(** * Properties *)

(** ** Dictionaries *)

Section DictFacts.
Context {V : Type}.
Implicit Types (d : dict V) (k : Path) (v : V).

Lemma dict_get_set_same d k v : dict_get k (dict_set k v d) = Some v.
Proof.
  induction d as [|[k' v'] r IH]; simpl.
  - now rewrite String.eqb_refl.
  - destruct (String.eqb k' k) eqn:E; simpl; rewrite E; auto.
Qed.

Lemma dict_get_set_other d k k' v :
  k <> k' -> dict_get k' (dict_set k v d) = dict_get k' d.
Proof.
  intros Hne. induction d as [|[k0 v0] r IH]; simpl.
  - destruct (String.eqb_spec k k'); congruence.
  - destruct (String.eqb_spec k0 k) as [->|Hk]; simpl.
    + destruct (String.eqb_spec k k'); congruence.
    + destruct (String.eqb_spec k0 k'); auto.
Qed.

Lemma dict_get_del_same d k : dict_get k (dict_del k d) = None.
Proof.
  induction d as [|[k' v'] r IH]; simpl; auto.
  destruct (String.eqb k' k) eqn:E; simpl; auto. now rewrite E.
Qed.

Lemma dict_get_del_other d k k' :
  k <> k' -> dict_get k' (dict_del k d) = dict_get k' d.
Proof.
  intros Hne. induction d as [|[k0 v0] r IH]; simpl; auto.
  destruct (String.eqb_spec k0 k) as [->|Hk]; simpl.
  - destruct (String.eqb_spec k k'); congruence.
  - destruct (String.eqb_spec k0 k'); auto.
Qed.

Lemma dict_get_in_keys d k v : dict_get k d = Some v -> In k (dict_keys d).
Proof.
  induction d as [|[k' v'] r IH]; simpl; [discriminate|].
  destruct (String.eqb_spec k' k); auto.
Qed.

Lemma dict_keys_get d k : In k (dict_keys d) -> exists v, dict_get k d = Some v.
Proof.
  induction d as [|[k' v'] r IH]; simpl; [tauto|].
  intros [->|Hin].
  - rewrite String.eqb_refl. eauto.
  - destruct (String.eqb k' k); eauto.
Qed.

Lemma dict_mem_true d k : dict_mem k d = true <-> In k (dict_keys d).
Proof.
  unfold dict_mem. split.
  - destruct (dict_get k d) eqn:E; [|discriminate].
    intros _. eauto using dict_get_in_keys.
  - intros Hin. destruct (dict_keys_get _ _ Hin) as [v ->]. reflexivity.
Qed.


(** With unique keys an item of the dict is what a lookup of its key gives. *)
Lemma dict_item_get d k v :
  NoDup (dict_keys d) -> In (k, v) d -> dict_get k d = Some v.
Proof.
  induction d as [|[k' v'] r IH]; simpl; [tauto|].
  intros Hnd [Heq|Hin].
  - inversion Heq; subst. now rewrite String.eqb_refl.
  - inversion Hnd as [|? ? Hnotin Hnd']; subst.
    destruct (String.eqb_spec k' k) as [->|_]; auto.
    exfalso. apply Hnotin. apply (in_map fst) in Hin. exact Hin.
Qed.

Lemma dict_keys_set_in d k v k' :
  In k' (dict_keys (dict_set k v d)) <-> k' = k \/ In k' (dict_keys d).
Proof.
  induction d as [|[k0 v0] r IH]; simpl.
  - intuition.
  - destruct (String.eqb_spec k0 k) as [->|Hk]; simpl; intuition.
Qed.

Lemma dict_keys_set_NoDup d k v :
  NoDup (dict_keys d) -> NoDup (dict_keys (dict_set k v d)).
Proof.
  induction d as [|[k0 v0] r IH]; simpl; intros Hnd.
  - repeat constructor. simpl. tauto.
  - inversion Hnd as [|? ? Hnotin Hnd']; subst.
    destruct (String.eqb_spec k0 k) as [->|Hk]; simpl.
    + constructor; auto.
    + constructor; auto. rewrite dict_keys_set_in. intuition.
Qed.

Lemma dict_keys_del_in d k k' :
  In k' (dict_keys (dict_del k d)) <-> k' <> k /\ In k' (dict_keys d).
Proof.
  induction d as [|[k0 v0] r IH]; simpl.
  - intuition.
  - destruct (String.eqb_spec k0 k) as [->|Hk]; simpl.
    + rewrite IH. intuition congruence.
    + rewrite IH. intuition congruence.
Qed.

Lemma dict_keys_del_NoDup d k :
  NoDup (dict_keys d) -> NoDup (dict_keys (dict_del k d)).
Proof.
  induction d as [|[k0 v0] r IH]; simpl; intros Hnd; auto.
  inversion Hnd as [|? ? Hnotin Hnd']; subst.
  destruct (String.eqb_spec k0 k) as [->|Hk]; simpl; auto.
  constructor; auto. rewrite dict_keys_del_in. tauto.
Qed.

Lemma dict_set_length d k v : (length (dict_set k v d) <= S (length d))%nat.
Proof.
  induction d as [|[k0 v0] r IH]; simpl; auto.
  destruct (String.eqb k0 k); simpl; lia.
Qed.
End DictFacts.

(** ** Rounding to binary64 *)

Section Rounding.
Local Open Scope Q_scope.

Lemma pow2_pos e : 0 < pow2 e.
Proof. unfold pow2. apply Qpower_0_lt. reflexivity. Qed.

Lemma pow2_add a b : pow2 (a + b) == pow2 a * pow2 b.
Proof. unfold pow2. apply Qpower_plus. discriminate. Qed.

Lemma pow2_le a b : (a <= b)%Z -> pow2 a <= pow2 b.
Proof. intros H. unfold pow2. apply Qpower_le_compat_l; auto. discriminate. Qed.

Lemma pow2_Z e : (0 <= e)%Z -> pow2 e == inject_Z (2 ^ e).
Proof. intros H. unfold pow2. now rewrite Zpower_Qpower. Qed.

Lemma pow2_sub a b : pow2 (a - b) * pow2 b == pow2 a.
Proof. rewrite <- pow2_add. now replace (a - b + b)%Z with a by lia. Qed.

(** [x / pow2 e] as a product *)
Lemma div_pow2 x e : x / pow2 e == x * pow2 (- e).
Proof.
  unfold Qdiv. apply Qmult_comp; [reflexivity|].
  unfold pow2. now rewrite Qpower_opp.
Qed.

Lemma pow2_inv e : pow2 (- e) * pow2 e == 1.
Proof. rewrite <- pow2_add. now replace (- e + e)%Z with 0%Z by lia. Qed.

Lemma scaled_le x y e : x <= y * pow2 e <-> x / pow2 e <= y.
Proof.
  pose proof (pow2_pos e) as Hp. pose proof (pow2_pos (- e)) as Hn.
  pose proof (pow2_inv e) as H1. rewrite div_pow2. split; intros H.
  - assert (H2 : x * pow2 (- e) <= y * pow2 e * pow2 (- e))
      by (apply Qmult_le_compat_r; lra).
    assert (E : y * pow2 e * pow2 (- e) == y * (pow2 (- e) * pow2 e)) by ring.
    rewrite E, H1 in H2. lra.
  - assert (H2 : x * pow2 (- e) * pow2 e <= y * pow2 e)
      by (apply Qmult_le_compat_r; lra).
    assert (E : x * pow2 (- e) * pow2 e == x * (pow2 (- e) * pow2 e)) by ring.
    rewrite E, H1 in H2. lra.
Qed.

Lemma scaled_ge x y e : y * pow2 e <= x <-> y <= x / pow2 e.
Proof.
  pose proof (pow2_pos e) as Hp. pose proof (pow2_pos (- e)) as Hn.
  pose proof (pow2_inv e) as H1. rewrite div_pow2. split; intros H.
  - assert (H2 : y * pow2 e * pow2 (- e) <= x * pow2 (- e))
      by (apply Qmult_le_compat_r; lra).
    assert (E : y * pow2 e * pow2 (- e) == y * (pow2 (- e) * pow2 e)) by ring.
    rewrite E, H1 in H2. lra.
  - assert (H2 : y * pow2 e <= x * pow2 (- e) * pow2 e)
      by (apply Qmult_le_compat_r; lra).
    assert (E : x * pow2 (- e) * pow2 e == x * (pow2 (- e) * pow2 e)) by ring.
    rewrite E, H1 in H2. lra.
Qed.

Lemma scaled_lt x y e : x < y * pow2 e <-> x / pow2 e < y.
Proof.
  split; intros H; apply Qnot_le_lt; intros Hc; apply scaled_ge in Hc;
    apply (Qlt_not_le _ _ H); auto.
Qed.

Lemma ilog2_spec x : 0 < x -> pow2 (ilog2 x) <= x /\ x < pow2 (ilog2 x + 1).
Proof.
  intros Hx. destruct x as [n d].
  assert (Hn : (0 < n)%Z) by (unfold Qlt in Hx; simpl in Hx; lia).
  unfold ilog2. cbn [Qnum Qden].
  set (a := Z.log2 n). set (b := Z.log2 (Z.pos d)).
  destruct (Z.log2_spec n Hn) as [Ha1 Ha2]. fold a in Ha1, Ha2.
  destruct (Z.log2_spec (Z.pos d) eq_refl) as [Hb1 Hb2]. fold b in Hb1, Hb2.
  assert (Ha0 : (0 <= a)%Z) by apply Z.log2_nonneg.
  assert (Hb0 : (0 <= b)%Z) by apply Z.log2_nonneg.
  assert (Ea : inject_Z n == (n # d) * inject_Z (Z.pos d)).
  { rewrite Qmake_Qdiv. field. discriminate. }
  assert (Qa1 : pow2 a <= inject_Z n) by (rewrite pow2_Z, <- Zle_Qle; auto).
  assert (Qa2 : inject_Z n < pow2 (a + 1))
    by (rewrite pow2_Z, <- Zlt_Qlt; [exact Ha2 | lia]).
  assert (Qb1 : pow2 b <= inject_Z (Z.pos d)) by (rewrite pow2_Z, <- Zle_Qle; auto).
  assert (Qb2 : inject_Z (Z.pos d) < pow2 (b + 1))
    by (rewrite pow2_Z, <- Zlt_Qlt; [exact Hb2 | lia]).
  pose proof (pow2_pos b) as Pb. pose proof (pow2_pos (a - b)) as Pk.
  pose proof (pow2_pos (a - b - 1)) as Pk1.
  assert (Hlow : pow2 (a - b - 1) <= n # d).
  { assert (E : pow2 (a - b - 1) * pow2 (b + 1) == pow2 a).
    { rewrite <- pow2_add. now replace (a - b - 1 + (b + 1))%Z with a by lia. }
    nra. }
  assert (Hup : n # d < pow2 (a - b + 1)).
  { assert (E : pow2 (a - b + 1) * pow2 b == pow2 (a + 1)).
    { rewrite <- pow2_add. now replace (a - b + 1 + b)%Z with (a + 1)%Z by lia. }
    pose proof (pow2_pos (a - b + 1)). nra. }
  destruct (Qle_bool (pow2 (a - b)) (n # d)) eqn:E.
  - apply Qle_bool_iff in E. auto.
  - replace (a - b - 1 + 1)%Z with (a - b)%Z by lia. split; auto.
    apply Qnot_le_lt. intros H. apply Qle_bool_iff in H. congruence.
Qed.

Lemma rne_bounds q : (Qfloor q <= rne q <= Qfloor q + 1)%Z.
Proof.
  unfold rne. destruct (Qcompare (q - inject_Z (Qfloor q)) (1 # 2)); try lia.
  destruct (Z.even (Qfloor q)); lia.
Qed.

Lemma floor_ge z q : inject_Z z <= q -> (z <= Qfloor q)%Z.
Proof. intros H. rewrite <- (Qfloor_Z z). now apply Qfloor_resp_le. Qed.

Lemma floor_lt z q : q < inject_Z z -> (Qfloor q < z)%Z.
Proof.
  intros H. pose proof (Qfloor_le q) as Hf.
  rewrite Zlt_Qlt. lra.
Qed.

Lemma fl_pos_eq x :
  fl_pos x == inject_Z (rne (x / pow2 (ulp_exponent x))) * pow2 (ulp_exponent x).
Proof. unfold fl_pos. apply Qred_correct. Qed.

Lemma fl_pos_binary64 x : 0 < x -> binary64 (fl_pos x).
Proof.
  intros Hx. exists (rne (x / pow2 (ulp_exponent x))), (ulp_exponent x).
  split; [|split; [unfold ulp_exponent; lia | apply fl_pos_eq]].
  set (e := ulp_exponent x). pose proof (rne_bounds (x / pow2 e)) as Hr.
  pose proof (pow2_pos e) as Pe.
  destruct (ilog2_spec x Hx) as [_ Hup].
  assert (H0 : (0 <= Qfloor (x / pow2 e))%Z).
  { apply floor_ge. apply scaled_ge. change (inject_Z 0) with 0.
    rewrite Qmult_0_l. lra. }
  assert (H1 : (Qfloor (x / pow2 e) < 2 ^ 53)%Z).
  { apply floor_lt. apply scaled_lt. rewrite <- pow2_Z by lia.
    rewrite <- pow2_add.
    assert (Hle : pow2 (ilog2 x + 1) <= pow2 (53 + e))
      by (apply pow2_le; unfold e, ulp_exponent; lia).
    lra. }
  lia.
Qed.

Lemma fl_pos_above f x : 0 < x -> binary64 f -> f <= x -> f <= fl_pos x.
Proof.
  intros Hx [m [e' [Hm [He' Ef]]]] Hfx. rewrite fl_pos_eq.
  set (e := ulp_exponent x). pose proof (rne_bounds (x / pow2 e)) as Hr.
  pose proof (pow2_pos e) as Pe. pose proof (pow2_pos e') as Pe'.
  destruct (Z_le_gt_dec e e') as [Hee|Hee].
  - (* f is a multiple of the spacing at x *)
    assert (EM : f == inject_Z (m * 2 ^ (e' - e)) * pow2 e).
    { rewrite Ef, inject_Z_mult, <- pow2_Z by lia.
      rewrite <- Qmult_assoc, pow2_sub. reflexivity. }
    assert (HM : (m * 2 ^ (e' - e) <= Qfloor (x / pow2 e))%Z).
    { apply floor_ge. apply scaled_ge. now rewrite <- EM. }
    rewrite EM. apply Qmult_le_compat_r; [|lra].
    rewrite <- Zle_Qle. lia.
  - (* f is below the binade of x *)
    assert (Ee : e = (ilog2 x - 52)%Z) by (unfold e, ulp_exponent in *; lia).
    destruct (ilog2_spec x Hx) as [Hlow _].
    assert (H52 : (2 ^ 52 <= Qfloor (x / pow2 e))%Z).
    { apply floor_ge. apply scaled_ge. rewrite <- pow2_Z by lia.
      rewrite <- pow2_add. replace (52 + e)%Z with (ilog2 x) by lia. exact Hlow. }
    assert (Hf : f <= pow2 (53 + e')).
    { rewrite Ef, pow2_add.
      apply Qmult_le_compat_r; [|lra]. rewrite pow2_Z, <- Zle_Qle by lia. lia. }
    assert (Hp : pow2 (53 + e') <= pow2 (52 + e)) by (apply pow2_le; lia).
    assert (Hr2 : pow2 (52 + e) <= inject_Z (rne (x / pow2 e)) * pow2 e).
    { rewrite pow2_add. apply Qmult_le_compat_r; [|lra].
      rewrite pow2_Z, <- Zle_Qle by lia. lia. }
    lra.
Qed.

Lemma binary64_nonneg f : binary64 f -> 0 <= f.
Proof.
  intros [m [e [Hm [_ Ef]]]]. rewrite Ef. pose proof (pow2_pos e).
  apply Qmult_le_0_compat; [|lra]. change 0 with (inject_Z 0).
  rewrite <- Zle_Qle. lia.
Qed.

Lemma binary64_zero : binary64 0.
Proof. exists 0%Z, 0%Z. split; [lia | split; [lia | reflexivity]]. Qed.

(** Rounding a sum never passes below a float that the sum is not below. *)
Lemma float_add_above f a b : binary64 f -> f <= a + b -> f <= float_add a b.
Proof.
  intros Hf Hle. unfold float_add, fl.
  pose proof (binary64_nonneg f Hf) as H0.
  destruct (Qcompare 0 (a + b)) eqn:E.
  - apply Qeq_alt in E. lra.
  - apply Qlt_alt in E. now apply fl_pos_above.
  - apply Qgt_alt in E. lra.
Qed.

Lemma float_add_binary64 a b : 0 <= a + b -> binary64 (float_add a b).
Proof.
  intros H0. unfold float_add, fl.
  destruct (Qcompare 0 (a + b)) eqn:E.
  - apply binary64_zero.
  - apply Qlt_alt in E. now apply fl_pos_binary64.
  - apply Qgt_alt in E. lra.
Qed.

(** The float test of line 73 passes only when the exact sum is below
    [now]. *)
Lemma float_test_exact t d now :
  binary64 now -> float_add t d < now -> t + d < now.
Proof.
  intros Hn Hlt. apply Qnot_le_lt. intros Hle.
  pose proof (float_add_above now t d Hn Hle). lra.
Qed.

Lemma advance_binary64 now d : binary64 now -> binary64 (advance now d).
Proof.
  intros Hn. unfold advance.
  destruct (Qle_bool 0 d) eqn:Ed; simpl; auto.
  destruct (Qle_bool (float_add now d) max_float); auto.
  apply Qle_bool_iff in Ed. pose proof (binary64_nonneg now Hn).
  apply float_add_binary64. lra.
Qed.

Lemma clock_advances d now : binary64 now -> now <= advance now d.
Proof.
  intros Hn. unfold advance.
  destruct (Qle_bool 0 d) eqn:Ed; simpl; [|lra].
  destruct (Qle_bool (float_add now d) max_float); [|lra].
  apply Qle_bool_iff in Ed. apply float_add_above; auto. lra.
Qed.

End Rounding.

(** ** The reaper's list *)

Lemma Qltb_lt x y : Qltb x y = true <-> (x < y)%Q.
Proof.
  unfold Qltb. rewrite negb_true_iff. split.
  - intros H. apply Qnot_le_lt. intros Hle. apply Qle_bool_iff in Hle. congruence.
  - intros H. destruct (Qle_bool y x) eqn:E; auto. apply Qle_bool_iff in E. lra.
Qed.

Lemma timeout_photos_float result now q :
  NoDup (dict_keys result) ->
  In q (timeout_photos_of result now) ->
  exists h t, dict_get q result = Some (h, t)
              /\ (float_add t TRANSLATE_RESULT_TIMEOUT < now)%Q.
Proof.
  intros Hnd Hin. unfold timeout_photos_of in Hin.
  apply in_map_iff in Hin. destruct Hin as [[k [h t]] [Hk Hin]].
  simpl in Hk; subst k. apply filter_In in Hin. destruct Hin as [Hin Ht].
  simpl in Ht. apply Qltb_lt in Ht.
  exists h, t. split; auto. now apply dict_item_get.
Qed.

Lemma timeout_photos_spec result now q :
  binary64 now ->
  NoDup (dict_keys result) ->
  In q (timeout_photos_of result now) ->
  exists h t, dict_get q result = Some (h, t)
              /\ (t + TRANSLATE_RESULT_TIMEOUT < now)%Q.
Proof.
  intros Hn Hnd Hin.
  destruct (timeout_photos_float result now q Hnd Hin) as [h [t [Hg Ht]]].
  exists h, t. split; auto. now apply float_test_exact.
Qed.

Lemma timeout_photos_complete result now q h t :
  dict_get q result = Some (h, t) ->
  (float_add t TRANSLATE_RESULT_TIMEOUT < now)%Q ->
  In q (timeout_photos_of result now).
Proof.
  intros Hget Ht. unfold timeout_photos_of.
  induction result as [|[k [h' t']] r IH]; simpl in *; [discriminate|].
  destruct (String.eqb_spec k q) as [->|Hk].
  - inversion Hget; subst. apply Qltb_lt in Ht. simpl. rewrite Ht. simpl. auto.
  - destruct (Qltb (float_add t' TRANSLATE_RESULT_TIMEOUT) now); simpl; auto.
Qed.

Lemma timeout_photos_NoDup result now :
  NoDup (dict_keys result) -> NoDup (timeout_photos_of result now).
Proof.
  unfold timeout_photos_of, dict_keys.
  induction result as [|[k v] r IH]; simpl; intros Hnd; [constructor|].
  inversion Hnd as [|? ? Hnotin Hnd']; subst.
  destruct (Qltb (float_add (snd v) TRANSLATE_RESULT_TIMEOUT) now); simpl; auto.
  constructor; auto.
  intros Hin. apply Hnotin. apply in_map_iff in Hin.
  destruct Hin as [kv [Hk Hin]]. apply filter_In in Hin.
  rewrite <- Hk. apply in_map. tauto.
Qed.

Lemma timeout_photos_length result now :
  (length (timeout_photos_of result now) <= length result)%nat.
Proof.
  unfold timeout_photos_of. rewrite length_map. apply filter_length_le.
Qed.

(** ** The pending list *)

Lemma list_index_app_in src l l' i :
  list_index src l = Some i -> list_index src (l ++ l') = Some i.
Proof.
  revert i. induction l as [|x r IH]; simpl; intros i; [discriminate|].
  destruct (String.eqb x src); auto.
  destruct (list_index src r) as [j|]; simpl; [|discriminate].
  intros Hi. now rewrite (IH j eq_refl).
Qed.

Lemma list_index_none src l : list_index src l = None <-> ~ In src l.
Proof.
  induction l as [|x r IH]; simpl.
  - tauto.
  - destruct (String.eqb_spec x src) as [->|Hne].
    + split; [discriminate | tauto].
    + destruct (list_index src r); simpl.
      * split; [discriminate|]. intros H. exfalso. apply H. right.
        destruct IH as [_ IH]. destruct (in_dec string_dec src r); auto.
        now specialize (IH n0).
      * split; auto. intros _ [H|H]; [congruence|]. now apply IH.
Qed.

Lemma list_index_skipn src l i k :
  list_index src l = Some i -> (k <= i)%nat ->
  list_index src (skipn k l) = Some (i - k)%nat.
Proof.
  revert l i. induction k as [|k IH]; intros l i Hi Hk; simpl.
  - now rewrite Nat.sub_0_r.
  - destruct l as [|x r]; simpl in Hi; [discriminate|].
    destruct (String.eqb x src).
    + inversion Hi; lia.
    + destruct (list_index src r) as [j|] eqn:E; simpl in Hi; [|discriminate].
      inversion Hi; subst. simpl. apply IH; auto. lia.
Qed.

Lemma in_skipn {A : Type} (x : A) k l : In x (skipn k l) -> In x l.
Proof.
  intros Hin. rewrite <- (firstn_skipn k l). apply in_or_app. now right.
Qed.

Lemma list_index_skipn_gone src l i k :
  list_index src l = Some i -> NoDup l -> (i < k)%nat ->
  ~ In src (skipn k l).
Proof.
  revert l i. induction k as [|k IH]; intros l i Hi Hnd Hk; [lia|].
  destruct l as [|x r]; simpl in *; [discriminate|].
  inversion Hnd as [|? ? Hnotin Hnd']; subst.
  destruct (String.eqb_spec x src) as [->|Hne].
  - intros Hin. apply Hnotin. eapply in_skipn; eauto.
  - destruct (list_index src r) as [j|] eqn:E; simpl in Hi; [|discriminate].
    inversion Hi; subst. eapply IH; eauto. lia.
Qed.

(** ** Task objects *)

Lemma finish_task_length h o tasks : length (finish_task h o tasks) = length tasks.
Proof.
  revert h. induction tasks as [|t r IH]; intros [|h]; simpl; auto.
Qed.

Lemma finish_task_src h o tasks :
  map coro_src (finish_task h o tasks) = map coro_src tasks.
Proof.
  revert h. induction tasks as [|t r IH]; intros [|h]; simpl; auto.
  - destruct (done t); reflexivity.
  - now rewrite IH.
Qed.

(** A task that has ended is not changed by a later [Finish]. *)
Lemma finish_task_nth_done h o tasks h' t :
  nth_error tasks h' = Some t -> done t = true ->
  nth_error (finish_task h o tasks) h' = Some t.
Proof.
  revert h h'. induction tasks as [|x r IH]; intros [|h] [|h']; simpl; auto;
    try discriminate.
  intros [= ->] Hd. now rewrite Hd.
Qed.

Lemma finish_task_nth_src h o tasks h' t :
  nth_error tasks h' = Some t ->
  exists t', nth_error (finish_task h o tasks) h' = Some t'
             /\ coro_src t' = coro_src t
             /\ (done t = true -> t' = t).
Proof.
  revert h h'. induction tasks as [|x r IH]; intros [|h] [|h']; simpl;
    try discriminate; eauto.
  intros [= ->]. destruct (done t) eqn:E; eauto.
  eexists; split; [reflexivity|]. split; auto. discriminate.
Qed.

Lemma handle_done_finish h o tasks h' :
  handle_done tasks h' = true -> handle_done (finish_task h o tasks) h' = true.
Proof.
  unfold handle_done. destruct (nth_error tasks h') as [t|] eqn:E; [|discriminate].
  intros Hd. now rewrite (finish_task_nth_done _ _ _ _ _ E Hd).
Qed.

(** ** How a step changes the pending list and the dispatch history *)

Lemma submissions_cons a l : submissions (a :: l) = submissions [a] ++ submissions l.
Proof. destruct a; reflexivity. Qed.

(** A step either leaves the dispatch history alone and appends what it
    submits, or it is the worker taking the head of the list and calling the
    backend on it. *)
Lemma step_queue a s :
  (dispatched (step a s) = dispatched s
   /\ translate_tasks (step a s) = translate_tasks s ++ submissions [a])
  \/ (exists photo,
         translate_tasks s = photo :: translate_tasks (step a s)
         /\ a = Worker /\ worker s = WSleep
         /\ dispatched (step a s) = dispatched s ++ [photo]).
Proof.
  unfold dispatched. destruct a as [src| |task o|d]; simpl.
  - left. auto.
  - unfold translater_worker.
    destruct (worker s) as [|photo task|[|q rest]|task rest|] eqn:Hw;
      try (left; simpl; rewrite ?app_nil_r; now auto).
    + destruct (translate_tasks s) as [|photo rest] eqn:Ht.
      * left. rewrite Ht. auto.
      * right. exists photo. simpl. rewrite map_app. auto.
    + destruct (handle_done (loop_tasks s) task); left; simpl;
        rewrite ?app_nil_r; auto.
    + destruct (dict_get q (translate_result s)) as [[task t]|]; left; simpl;
        rewrite ?app_nil_r; auto.
    + destruct (handle_done (loop_tasks s) task); left; simpl;
        rewrite ?app_nil_r; auto.
  - left. rewrite finish_task_src, app_nil_r. auto.
  - left. rewrite app_nil_r. auto.
Qed.

(** Along a schedule the backend is called on a prefix of "what was pending,
    then what was submitted", and the rest is what is pending at the end. *)
Lemma exec_queue l : forall s,
  exists more,
    dispatched (exec l s) = dispatched s ++ more
    /\ translate_tasks s ++ submissions l = more ++ translate_tasks (exec l s).
Proof.
  induction l as [|a l IH]; intros s; simpl exec.
  - exists []. simpl. now rewrite !app_nil_r.
  - destruct (IH (step a s)) as [more [Hd Hq]].
    rewrite (submissions_cons a l).
    destruct (step_queue a s) as [[Hd1 Hq1]|[photo [Hq1 [Ha [_ Hd1]]]]].
    + exists more. rewrite Hd, Hd1. split; auto.
      rewrite <- Hq, Hq1. now rewrite app_assoc.
    + exists (photo :: more). rewrite Hd, Hd1, <- app_assoc. split; auto.
      rewrite Hq1. subst a. simpl. f_equal. exact Hq.
Qed.

(** ** Enqueue *)

(** C8: [add_translate_task] appends the path at the tail of the pending list
    and returns the length the list had before, which is the index of the new
    entry; it returns 0 exactly when the list was empty, and then the next
    resumption of an idle worker takes this very path and calls the backend
    on it. *)
Theorem add_translate_task_returns_tail_index :
  forall (src : Path) (tasks : list Path),
    fst (add_translate_task src tasks) = tasks ++ [src]
    /\ snd (add_translate_task src tasks) = length tasks
    /\ nth_error (fst (add_translate_task src tasks))
                 (snd (add_translate_task src tasks)) = Some src
    /\ (snd (add_translate_task src tasks) = 0%nat <-> tasks = [])
    /\ (snd (add_translate_task src tasks) = 0%nat ->
        forall result objs now,
          translater_worker
            (mkSys (fst (add_translate_task src tasks)) result objs now WSleep)
          = mkSys [] result (objs ++ [mkTask src None]) now
                  (WPoll src (length objs))).
Proof.
  intros src tasks. unfold add_translate_task. simpl.
  assert (Hlen : (length (tasks ++ [src]) - 1 = length tasks)%nat).
  { rewrite length_app. simpl. lia. }
  rewrite Hlen. repeat split.
  - rewrite nth_error_app2 by lia. now rewrite Nat.sub_diag.
  - intros H. now apply length_zero_iff_nil.
  - intros ->. reflexivity.
  - intros H result objs now. apply length_zero_iff_nil in H. subst tasks.
    reflexivity.
Qed.

(** ** Submission validation *)

Lemma oversized_spec size n :
  oversized size = Some n <-> size = Some n /\ (1048576 < n)%Z.
Proof.
  unfold oversized. destruct size as [m|].
  - change (1024 * 1024)%Z with 1048576%Z.
    destruct (Z.eqb_spec m 0) as [->|Hm]; cbn [negb andb].
    + split; [discriminate|]. intros [[= <-] H]. lia.
    + destruct (Z.ltb_spec 1048576 m) as [Hlt|Hge].
      * split; [intros [= <-]; split; auto | intros [[= <-] _]; auto].
      * split; [discriminate|]. intros [[= <-] H]. lia.
  - split; [discriminate | intros [[=] _]].
Qed.

Lemma oversized_none size :
  oversized size = None
  <-> size = None \/ exists n, size = Some n /\ (n <= 1048576)%Z.
Proof.
  split.
  - destruct size as [m|]; auto. intros H. right. exists m. split; auto.
    destruct (Z.le_gt_cases m 1048576) as [Hle|Hgt]; auto.
    assert (Hs : oversized (Some m) = Some m) by (apply oversized_spec; split; auto; lia).
    congruence.
  - intros [->|[n [-> Hn]]]; auto.
    destruct (oversized (Some n)) as [m|] eqn:E; auto.
    apply oversized_spec in E. destruct E as [[= <-] Hlt]. lia.
Qed.

(** C10: [save_photo] raises [PhotoTooBig] if and only if the file that
    [get_file] reports for the last photo of the message has a size strictly
    above 1048576.  A reported size of exactly 1048576, of 0, or no reported
    size at all is not refused: [save_photo] goes on to the download and
    returns the save path when it succeeds, and [run] then appends that path
    to the pending list.  On [PhotoTooBig], [run] answers and returns with
    the shared state untouched, so the job never enters the pending list. *)
Theorem photo_too_big_iff_over_one_mebibyte :
  forall (bot : Bot) (message : Message),
    (forall n,
        save_photo bot message = inl (PhotoTooBig n)
        <-> exists user sized file,
              from_user message = Some user
              /\ last_item (photo message) = Some sized
              /\ get_file bot (file_id sized) = Some file
              /\ file_size file = Some n
              /\ (1048576 < n)%Z)
    /\ (forall user sized file,
           from_user message = Some user ->
           last_item (photo message) = Some sized ->
           get_file bot (file_id sized) = Some file ->
           (file_size file = None
            \/ exists n, file_size file = Some n /\ (n <= 1048576)%Z) ->
           save_photo bot message
           = if download_to_drive bot (save_path_of message user)
             then inr (save_path_of message user)
             else inl UnknownError)
    /\ (forall n on_disk s,
           run_begin (inl (PhotoTooBig n)) on_disk s
           = (s, CEnd, [reply_message TooBig]))
    /\ (forall saved_file_path on_disk s,
           save_photo bot message = inr saved_file_path ->
           on_disk saved_file_path = true ->
           translate_tasks (fst (fst (run_begin (inr saved_file_path) on_disk s)))
           = translate_tasks s ++ [saved_file_path]
           /\ snd (fst (run_begin (inr saved_file_path) on_disk s))
              = CQueue saved_file_path (length (translate_tasks s))).
Proof.
  intros bot message. split; [|split; [|split]].
  - intros n. unfold save_photo. split.
    + destruct (from_user message) as [user|] eqn:Hu; [|discriminate].
      destruct (last_item (photo message)) as [sized|] eqn:Hl; [|discriminate].
      destruct (get_file bot (file_id sized)) as [file|] eqn:Hg; [|discriminate].
      destruct (oversized (file_size file)) as [m|] eqn:E.
      * intros [= <-]. apply oversized_spec in E. destruct E as [Hsz Hn].
        exists user, sized, file. repeat split; auto.
      * destruct (download_to_drive bot _); discriminate.
    + intros [user [sized [file [-> [-> [-> [Hsz Hn]]]]]]].
      assert (E : oversized (file_size file) = Some n) by (apply oversized_spec; auto).
      now rewrite E.
  - intros user sized file Hu Hl Hg Hsz. unfold save_photo.
    rewrite Hu, Hl, Hg.
    assert (E : oversized (file_size file) = None) by (apply oversized_none; auto).
    now rewrite E.
  - reflexivity.
  - intros p on_disk s _ Hdisk. unfold run_begin. rewrite Hdisk. simpl.
    split; auto. f_equal. rewrite length_app. simpl. lia.
Qed.

(** ** The position loop of the waiter *)

(** C7, as the claim states it, fails: a caller that last saw position 1 and
    now finds its path at position 0 of the pending list (still queued, no
    backend call made for it) leaves the position loop with the "processing
    has started" message. *)
Lemma position_zero_counts_as_started :
  translate_task_index "b.jpg" ["b.jpg"; "c.jpg"] = Some 0%nat
  /\ dispatched (mkSys ["b.jpg"; "c.jpg"] [] [mkTask "a.jpg" None] 0 (WPoll "a.jpg" 0)) = ["a.jpg"]
  /\ run_resume (mkSys ["b.jpg"; "c.jpg"] [] [mkTask "a.jpg" None] 0 (WPoll "a.jpg" 0))
                   (CQueue "b.jpg" 1)
     = (CResult "b.jpg", [edit_or_reply_message Started]).
Proof. repeat split. Qed.

(** C7 (amended): while the last observed position [idx] is not 0, one
    iteration of the position loop leaves the loop for the result loop, with
    the "processing has started" message, exactly when [translate_task_index]
    returns [None] or 0; when it returns a non-zero position other than
    [idx] (in particular a smaller one) the caller records it and reports
    it; when it returns [idx] again the caller reports nothing and stays. *)
Theorem position_poll_cases :
  forall (s : sys) (saved_file_path : Path) (idx : nat),
    idx <> 0%nat ->
    (fst (run_resume s (CQueue saved_file_path idx)) = CResult saved_file_path
     <-> translate_task_index saved_file_path (translate_tasks s) = None
         \/ translate_task_index saved_file_path (translate_tasks s) = Some 0%nat)
    /\ (translate_task_index saved_file_path (translate_tasks s) = None
        \/ translate_task_index saved_file_path (translate_tasks s) = Some 0%nat ->
        run_resume s (CQueue saved_file_path idx)
        = (CResult saved_file_path, [edit_or_reply_message Started]))
    /\ (forall new_idx,
           translate_task_index saved_file_path (translate_tasks s) = Some new_idx ->
           new_idx <> 0%nat -> new_idx <> idx ->
           run_resume s (CQueue saved_file_path idx)
           = (CQueue saved_file_path new_idx,
              [edit_or_reply_message (Ahead new_idx)]))
    /\ (translate_task_index saved_file_path (translate_tasks s) = Some idx ->
        run_resume s (CQueue saved_file_path idx)
        = (CQueue saved_file_path idx, [])).
Proof.
  intros s p idx Hidx. simpl.
  apply Nat.eqb_neq in Hidx. rewrite Hidx.
  destruct (translate_task_index p (translate_tasks s)) as [[|n]|] eqn:E.
  - repeat split; auto; try congruence.
    intros [= <-]. now rewrite Nat.eqb_refl in Hidx.
  - repeat split; try (intros [H|H]; discriminate).
    + destruct (idx =? S n)%nat; simpl; discriminate.
    + intros new_idx [= <-] _ Hne.
      apply not_eq_sym, Nat.eqb_neq in Hne. now rewrite Hne.
    + intros [= <-]. now rewrite Nat.eqb_refl.
  - repeat split; auto; try congruence.
Qed.

(** A caller at position 2 sees position 1 and reports it. *)
Lemma position_poll_cases_witness :
  run_resume (mkSys ["b.jpg"; "c.jpg"] [] [] 0 WSleep) (CQueue "c.jpg" 2)
  = (CQueue "c.jpg" 1%nat, [edit_or_reply_message (Ahead 1)]).
Proof.
  apply (position_poll_cases (mkSys ["b.jpg"; "c.jpg"] [] [] 0 WSleep) "c.jpg" 2);
    [lia | reflexivity | lia | lia].
Defined.

(** ** An invariant of the shared state *)

Lemma ended_done objs h p o :
  nth_error objs h = Some (mkTask p (Some o)) -> handle_done objs h = true.
Proof. unfold handle_done. now intros ->. Qed.

Lemma done_ended objs h p r :
  nth_error objs h = Some (mkTask p r) -> handle_done objs h = true ->
  exists o, r = Some o.
Proof.
  unfold handle_done. intros ->. unfold done. simpl.
  destruct r; [eauto | discriminate].
Qed.

Lemma stored_done s p h t :
  consistent s -> dict_get p (translate_result s) = Some (h, t) ->
  handle_done (loop_tasks s) h = true.
Proof.
  intros H Hg. destruct (stored_ended s H p h t Hg) as [[o Ho] _].
  eauto using ended_done.
Qed.

Lemma consistent_init : consistent init.
Proof.
  split; simpl.
  - constructor.
  - discriminate.
  - intros h Hh. lia.
  - exact I.
  - apply binary64_zero.
Qed.

Lemma for_next_ok rest result objs now tasks :
  NoDup rest ->
  (forall q, In q rest ->
     exists h t, dict_get q result = Some (h, t)
                 /\ (t + TRANSLATE_RESULT_TIMEOUT < now)%Q) ->
  worker_ok (mkSys tasks result objs now (for_next rest)).
Proof.
  intros Hnd Hall. destruct rest as [|q rest]; simpl; [exact I|].
  unfold worker_ok; simpl. repeat split; auto. discriminate.
Qed.

Lemma consistent_worker s : consistent s -> consistent (translater_worker s).
Proof.
  intros H. pose proof H as [Hk Hs Hr Hw Hfl].
  unfold translater_worker. unfold worker_ok in Hw.
  destruct (worker s) as [|photo task|[|q rest]|task rest|] eqn:Ew.
  - (* idle *)
    destruct (translate_tasks s) as [|photo rest] eqn:Et.
    + exact H.
    + simpl. split; simpl; auto.
      * intros p h t Hg. destruct (Hs p h t Hg) as [[o Ho] Ht]. split; auto.
        exists o. rewrite nth_error_app1; auto.
        apply nth_error_Some. congruence.
      * intros h Hlt Hnd. rewrite length_app in Hlt. simpl in Hlt.
        destruct (Nat.eq_dec h (length (loop_tasks s))) as [->|Hne]; eauto.
        assert (Hlt' : (h < length (loop_tasks s))%nat) by lia.
        unfold handle_done in Hnd. rewrite nth_error_app1 in Hnd by auto.
        destruct (Hr h Hlt' Hnd) as [x Hx]. congruence.
      * unfold worker_ok; simpl. exists None.
        rewrite nth_error_app2 by lia. now rewrite Nat.sub_diag.
  - (* polling the task *)
    destruct (handle_done (loop_tasks s) task) eqn:Ed.
    + assert (Hk' : NoDup (dict_keys
                (dict_set photo (task, perf_counter s) (translate_result s))))
        by now apply dict_keys_set_NoDup.
      destruct Hw as [r Hn]. destruct (done_ended _ _ _ _ Hn Ed) as [o ->].
      split; simpl; auto.
      * intros p h t. destruct (String.eqb_spec photo p) as [->|Hne].
        -- rewrite dict_get_set_same. intros [= <- <-]. split; eauto. lra.
        -- rewrite dict_get_set_other by auto. apply Hs.
      * intros h Hlt Hnd. destruct (Hr h Hlt Hnd) as [x Hx].
        inversion Hx; subst. congruence.
      * apply for_next_ok.
        -- now apply timeout_photos_NoDup.
        -- intros q Hq. now apply timeout_photos_spec.
    + exact H.
  - destruct Hw as [Hw _]. congruence.
  - (* reaping q *)
    destruct Hw as [_ [Hnd Hall]].
    destruct (Hall q (or_introl eq_refl)) as [h [t [Hg Ht]]].
    rewrite Hg. rewrite (stored_done s q h t H Hg).
    inversion Hnd as [|? ? Hnotin Hnd']; subst.
    split; simpl.
    + now apply dict_keys_del_NoDup.
    + intros p h' t'. destruct (String.eqb_spec q p) as [->|Hne].
      * rewrite dict_get_del_same. discriminate.
      * rewrite dict_get_del_other by auto. apply Hs.
    + intros h' Hlt Hnd2. destruct (Hr h' Hlt Hnd2) as [x Hx]. congruence.
    + apply for_next_ok; auto.
      intros q' Hq'. assert (q <> q') by (intros ->; contradiction).
      rewrite dict_get_del_other by auto. apply Hall. now right.
    + exact Hfl.
  - contradiction.
  - contradiction.
Qed.

Lemma consistent_step a s : consistent s -> consistent (step a s).
Proof.
  destruct a as [src| |task o|d]; simpl.
  - intros [Hk Hs Hr Hw Hfl]. split; simpl; auto.
  - apply consistent_worker.
  - intros [Hk Hs Hr Hw Hfl]. split; simpl; auto.
    + intros p h t Hg. destruct (Hs p h t Hg) as [[o' Ho] Ht]. split; auto.
      exists o'. now apply finish_task_nth_done.
    + intros h Hlt Hnd. rewrite finish_task_length in Hlt.
      apply Hr; auto.
      destruct (handle_done (loop_tasks s) h) eqn:E; auto.
      now rewrite (handle_done_finish task o _ _ E) in Hnd.
    + unfold worker_ok in *. simpl. destruct (worker s); auto.
      destruct Hw as [r Hn].
      destruct (finish_task_nth_src task o _ _ _ Hn) as [[p' r'] [Hn' [Hsrc _]]].
      simpl in Hsrc. subst p'. eauto.
  - intros [Hk Hs Hr Hw Hfl]. split; simpl; auto.
    + intros p h t Hg. destruct (Hs p h t Hg). split; auto.
      pose proof (clock_advances d (perf_counter s) Hfl). lra.
    + unfold worker_ok in *. simpl. destruct (worker s); auto.
      destruct Hw as [Hne [Hnd Hall]]. repeat split; auto.
      intros q Hq. destruct (Hall q Hq) as [h [t [Hg Ht]]].
      exists h, t. split; auto.
      pose proof (clock_advances d (perf_counter s) Hfl). lra.
    + now apply advance_binary64.
Qed.

Lemma consistent_exec l : forall s, consistent s -> consistent (exec l s).
Proof.
  induction l as [|a l IH]; intros s Hs; simpl; auto using consistent_step.
Qed.

Lemma reachable_consistent l : consistent (exec l init).
Proof. apply consistent_exec, consistent_init. Qed.

(** ** At most one backend call in flight *)

Lemma running_handle objs t :
  In t objs -> done t = false ->
  exists h, (h < length objs)%nat /\ handle_done objs h = false.
Proof.
  intros Hin Hd. destruct (In_nth_error _ _ Hin) as [h Hh].
  exists h. split.
  - apply nth_error_Some. congruence.
  - unfold handle_done. now rewrite Hh.
Qed.

Lemma none_running objs :
  (forall h, (h < length objs)%nat -> handle_done objs h = true) ->
  filter (fun t => negb (done t)) objs = [].
Proof.
  intros Hall.
  destruct (filter (fun t => negb (done t)) objs) as [|t r] eqn:E; auto.
  assert (Hin : In t (filter (fun t => negb (done t)) objs))
    by (rewrite E; now left).
  apply filter_In in Hin. destruct Hin as [Hin Hd].
  apply negb_true_iff in Hd.
  destruct (running_handle _ _ Hin Hd) as [h [Hlt Hnd]].
  rewrite (Hall h Hlt) in Hnd. discriminate.
Qed.

Lemma one_running_at_most objs :
  (forall i j, (i < length objs)%nat -> (j < length objs)%nat ->
               handle_done objs i = false -> handle_done objs j = false ->
               i = j) ->
  (length (filter (fun t => negb (done t)) objs) <= 1)%nat.
Proof.
  induction objs as [|t r IH]; intros Huniq; simpl; auto.
  destruct (done t) eqn:Ed; simpl.
  - apply IH. intros i j Hi Hj Hdi Hdj.
    assert (S i = S j) by (apply Huniq; simpl; auto; lia). lia.
  - rewrite none_running; auto.
    intros h Hh. destruct (handle_done r h) eqn:E; auto.
    assert (0 = S h)%nat; [|discriminate].
    apply Huniq; simpl; auto; lia.
Qed.

(** C5: in every state reachable from the initial one, under any
    interleaving of submissions, worker resumptions, backend completions and
    clock ticks, at most one backend task has been created and has not
    ended; and a step that removes an entry from the pending list is a
    resumption of the worker (no other step removes one) that finds no
    backend task unfinished. *)
Theorem at_most_one_backend_call_in_flight :
  forall (l : list action),
    (length (in_flight (exec l init)) <= 1)%nat
    /\ (forall a photo,
           translate_tasks (exec l init)
           = photo :: translate_tasks (step a (exec l init)) ->
           a = Worker /\ in_flight (exec l init) = []).
Proof.
  intros l. pose proof (reachable_consistent l) as H.
  set (s := exec l init) in *. destruct H as [Hk Hs Hr Hw Hfl]. split.
  - apply one_running_at_most. intros i j Hi Hj Hdi Hdj.
    destruct (Hr i Hi Hdi) as [p Hp]. destruct (Hr j Hj Hdj) as [q Hq].
    congruence.
  - intros a photo Hpop.
    destruct (step_queue a s) as [[_ Hq]|[photo' [_ [Ha [Hsl _]]]]].
    + exfalso. rewrite Hq in Hpop. apply (f_equal (@length _)) in Hpop.
      simpl in Hpop. rewrite length_app in Hpop. lia.
    + split; auto. apply none_running. intros h Hh.
      destruct (handle_done (loop_tasks s) h) eqn:E; auto.
      destruct (Hr h Hh E) as [p Hp]. congruence.
Qed.

(** ** Positions in the pending list *)

Lemma skipn_prefix {A : Type} (more rest : list A) :
  skipn (length more) (more ++ rest) = rest.
Proof. induction more; simpl; auto. Qed.

(** The pending list after a schedule: what was pending followed by what was
    submitted, less as many entries at the front as backend calls were made. *)
Lemma exec_pending l s :
  translate_tasks (exec l s)
  = skipn (length (dispatched (exec l s)) - length (dispatched s))
          (translate_tasks s ++ submissions l).
Proof.
  destruct (exec_queue l s) as [more [Hd Hq]].
  rewrite Hd, Hq, length_app.
  replace (length (dispatched s) + length more - length (dispatched s))%nat
    with (length more) by lia.
  now rewrite skipn_prefix.
Qed.

(** C6: take a path at position [i] of the pending list and any schedule
    from there, and let [k] be the number of backend calls the schedule
    makes.  While [k <= i] the path is at position [i - k]: each dispatch of
    a job ahead lowers the position by exactly one, and nothing else
    (appends by callers, backend completions, the reaper, the clock) changes
    it, so the position never grows.  Once [k > i] the job itself has been
    dispatched, and the position is [None] when the path was pending only
    once and is not submitted again. *)
Theorem position_drops_by_one_per_dispatch :
  forall (l : list action) (s : sys) (src : Path) (i : nat),
    translate_task_index src (translate_tasks s) = Some i ->
    ((length (dispatched (exec l s)) - length (dispatched s) <= i)%nat ->
     translate_task_index src (translate_tasks (exec l s))
     = Some (i - (length (dispatched (exec l s)) - length (dispatched s)))%nat)
    /\ ((i < length (dispatched (exec l s)) - length (dispatched s))%nat ->
        NoDup (translate_tasks s) -> ~ In src (submissions l) ->
        translate_task_index src (translate_tasks (exec l s)) = None).
Proof.
  intros l s src i Hi. unfold translate_task_index in *.
  rewrite (exec_pending l s).
  set (k := (length (dispatched (exec l s)) - length (dispatched s))%nat).
  split.
  - intros Hk. apply list_index_skipn; auto. now apply list_index_app_in.
  - intros Hk Hnd Hsub. apply list_index_none.
    rewrite skipn_app. intros Hin. apply in_app_or in Hin.
    destruct Hin as [Hin|Hin].
    + now apply (list_index_skipn_gone src _ i k Hi Hnd Hk).
    + apply Hsub. eapply in_skipn; eauto.
Qed.

(** The third of three pending jobs, after one dispatch and one append by
    another caller, is at position 1; after it has been dispatched too its
    position is [None]. *)
Lemma position_drops_by_one_per_dispatch_witness :
  translate_task_index "c.jpg"
    (translate_tasks
       (exec [Worker; Submit "d.jpg"]
             (mkSys ["a.jpg"; "b.jpg"; "c.jpg"] [] [] 0 WSleep)))
  = Some 1%nat
  /\ translate_task_index "c.jpg"
       (translate_tasks
          (exec [Worker; Finish 0 (Returned "translated/a.jpg"); Worker;
                 Worker; Finish 1 (Raised "ReadTimeout"); Worker; Worker]
                (mkSys ["a.jpg"; "b.jpg"; "c.jpg"] [] [] 0 WSleep)))
     = None.
Proof.
  split.
  - apply (position_drops_by_one_per_dispatch
             [Worker; Submit "d.jpg"]
             (mkSys ["a.jpg"; "b.jpg"; "c.jpg"] [] [] 0 WSleep) "c.jpg" 2);
      [reflexivity | simpl; lia].
  - apply (position_drops_by_one_per_dispatch
             [Worker; Finish 0 (Returned "translated/a.jpg"); Worker;
              Worker; Finish 1 (Raised "ReadTimeout"); Worker; Worker]
             (mkSys ["a.jpg"; "b.jpg"; "c.jpg"] [] [] 0 WSleep) "c.jpg" 2);
      [reflexivity | vm_compute; lia | | vm_compute; tauto].
    repeat constructor; simpl; intuition discriminate.
Defined.

(** ** Pending, in the worker's hands, stored *)

Lemma pending_In src s : pending src s = true <-> In src (translate_tasks s).
Proof.
  unfold pending. rewrite existsb_exists. split.
  - intros [x [Hin Heq]]. apply String.eqb_eq in Heq. now subst.
  - intros Hin. exists src. split; auto. apply String.eqb_refl.
Qed.

Lemma pending_false src s : pending src s = false <-> ~ In src (translate_tasks s).
Proof.
  rewrite <- pending_In. destruct (pending src s); split; congruence.
Qed.

Lemma dict_mem_set_other {V : Type} (d : dict V) k v k' :
  k <> k' -> dict_mem k' (dict_set k v d) = dict_mem k' d.
Proof. intros Hne. unfold dict_mem. now rewrite dict_get_set_other. Qed.

Lemma dict_mem_del_false {V : Type} (d : dict V) k k' :
  dict_mem k' d = false -> dict_mem k' (dict_del k d) = false.
Proof.
  intros H. destruct (dict_mem k' (dict_del k d)) eqn:E; auto.
  apply dict_mem_true, dict_keys_del_in in E. destruct E as [_ E].
  apply dict_mem_true in E. congruence.
Qed.

Lemma for_next_not_poll rest photo task : for_next rest <> WPoll photo task.
Proof. destruct rest; discriminate. Qed.

Lemma in_worker_hands_for_next p tasks result objs now rest :
  in_worker_hands p (mkSys tasks result objs now (for_next rest)) = false.
Proof. unfold in_worker_hands. simpl. now destruct rest. Qed.

Lemma separated_init : separated init.
Proof.
  split; simpl.
  - constructor.
  - tauto.
  - discriminate.
Qed.

Lemma separated_worker s : separated s -> separated (translater_worker s).
Proof.
  intros H. pose proof H as [Hnd Hp Hw]. unfold translater_worker.
  destruct (worker s) as [|photo task|[|q rest]|task rest|] eqn:Ew.
  - destruct (translate_tasks s) as [|photo rest] eqn:Et; [exact H|].
    inversion Hnd as [|? ? Hnotin Hnd']; subst. simpl.
    split; simpl; auto.
    + intros p Hin. destruct (Hp p (or_intror Hin)) as [Hm _]. split; auto.
      unfold in_worker_hands. simpl.
      destruct (String.eqb_spec photo p); auto. subst. contradiction.
    + intros photo' task' [= <- _]. apply (Hp photo). now left.
  - destruct (handle_done (loop_tasks s) task); [|exact H].
    split; simpl; auto.
    + intros p Hin. destruct (Hp p Hin) as [Hm Hh]. split.
      * unfold in_worker_hands in Hh. rewrite Ew in Hh.
        apply String.eqb_neq in Hh. now rewrite dict_mem_set_other.
      * apply in_worker_hands_for_next.
    + intros photo' task' Hx. now apply for_next_not_poll in Hx.
  - split; simpl; auto; [|discriminate].
    intros p Hin. destruct (Hp p Hin). split; auto.
  - destruct (dict_get q (translate_result s)) as [[task t]|] eqn:Eg.
    + split; simpl; auto.
      * intros p Hin. destruct (Hp p Hin) as [Hm Hh]. split.
        -- now apply dict_mem_del_false.
        -- unfold in_worker_hands. simpl.
           destruct (handle_done (loop_tasks s) task); auto. now destruct rest.
      * intros photo' task' Hx.
        destruct (handle_done (loop_tasks s) task); [|discriminate].
        now apply for_next_not_poll in Hx.
    + split; simpl; auto; [|discriminate].
      intros p Hin. destruct (Hp p Hin). split; auto.
  - destruct (handle_done (loop_tasks s) task); [|exact H].
    split; simpl; auto.
    + intros p Hin. destruct (Hp p Hin). split; auto.
      apply in_worker_hands_for_next.
    + intros photo' task' Hx. now apply for_next_not_poll in Hx.
  - exact H.
Qed.

Lemma NoDup_snoc {A : Type} (l : list A) x : NoDup l -> ~ In x l -> NoDup (l ++ [x]).
Proof.
  induction l as [|y r IH]; simpl; intros Hnd Hx.
  - repeat constructor. simpl. tauto.
  - inversion Hnd as [|? ? Hnotin Hnd']; subst. constructor.
    + intros Hin. apply in_app_or in Hin. simpl in Hin. intuition.
    + apply IH; auto.
Qed.

Lemma separated_step a s :
  separated s ->
  match a with Submit src => known src s = false | _ => True end ->
  separated (step a s).
Proof.
  destruct a as [src| |task o|d]; simpl.
  - intros [Hnd Hp Hw] Hk. unfold known in Hk.
    apply orb_false_iff in Hk. destruct Hk as [Hk Hm].
    apply orb_false_iff in Hk. destruct Hk as [Hq Hh].
    apply pending_false in Hq.
    split; simpl.
    + now apply NoDup_snoc.
    + intros p Hin. apply in_app_or in Hin. destruct Hin as [Hin|[<-|[]]].
      * apply Hp; auto.
      * split; auto.
    + exact Hw.
  - intros H _. now apply separated_worker.
  - intros [Hnd Hp Hw] _. split; simpl; auto.
  - intros [Hnd Hp Hw] _. split; simpl; auto.
Qed.

Lemma separated_exec l : forall s,
  separated s -> unique_while_known l s = true -> separated (exec l s).
Proof.
  induction l as [|a l IH]; intros s Hs Hu; simpl in *; auto.
  apply andb_true_iff in Hu. destruct Hu as [Ha Hu].
  apply IH; auto. apply separated_step; auto.
  destruct a; auto. now apply negb_true_iff in Ha.
Qed.

Lemma handle_src_dispatched s h p r :
  nth_error (loop_tasks s) h = Some (mkTask p r) -> In p (dispatched s).
Proof.
  intros Hn. unfold dispatched.
  change p with (coro_src (mkTask p r)). apply in_map.
  eapply nth_error_In; eauto.
Qed.

(** C9: when callers submit a path only while it is not known to the system
    (the uniqueness the data model asks of them), then in every reachable
    state a pending path is not in the result store; a path in the result
    store has had its backend call made and is not pending; and the path
    whose backend call the worker is waiting on has left the pending list
    and is not in the result store yet. *)
Theorem stored_only_after_leaving_queue :
  forall (l : list action),
    unique_while_known l init = true ->
    (forall p, In p (translate_tasks (exec l init)) ->
               dict_mem p (translate_result (exec l init)) = false)
    /\ (forall p, dict_mem p (translate_result (exec l init)) = true ->
                  In p (dispatched (exec l init))
                  /\ ~ In p (translate_tasks (exec l init)))
    /\ (forall photo task,
           worker (exec l init) = WPoll photo task ->
           In photo (dispatched (exec l init))
           /\ ~ In photo (translate_tasks (exec l init))
           /\ dict_mem photo (translate_result (exec l init)) = false).
Proof.
  intros l Hu.
  pose proof (separated_exec l init separated_init Hu) as [Hnd Hp Hw].
  pose proof (reachable_consistent l) as Hc.
  set (s := exec l init) in *. split; [|split].
  - intros p Hin. now apply Hp.
  - intros p Hm. split.
    + unfold dict_mem in Hm.
      destruct (dict_get p (translate_result s)) as [[h t]|] eqn:Eg;
        [|discriminate].
      destruct (stored_ended s Hc p h t Eg) as [[o Ho] _].
      eauto using handle_src_dispatched.
    + intros Hin. destruct (Hp p Hin). congruence.
  - intros photo task Ew. split; [|split].
    + pose proof (worker_fine s Hc) as Hok. unfold worker_ok in Hok.
      rewrite Ew in Hok. destruct Hok as [r Hr].
      eauto using handle_src_dispatched.
    + intros Hin. destruct (Hp photo Hin) as [_ Hh].
      unfold in_worker_hands in Hh. rewrite Ew in Hh.
      now rewrite String.eqb_refl in Hh.
    + eapply Hw; eauto.
Qed.

(** After the worker has taken a submitted path and before the backend call
    ends, the path is in neither structure. *)
Lemma stored_only_after_leaving_queue_witness :
  In "a.jpg" (dispatched (exec [Submit "a.jpg"; Worker; Submit "b.jpg"] init))
  /\ ~ In "a.jpg" (translate_tasks (exec [Submit "a.jpg"; Worker; Submit "b.jpg"] init))
  /\ dict_mem "a.jpg"
       (translate_result (exec [Submit "a.jpg"; Worker; Submit "b.jpg"] init))
     = false.
Proof.
  exact (proj2 (proj2 (stored_only_after_leaving_queue
                         [Submit "a.jpg"; Worker; Submit "b.jpg"] eq_refl))
               "a.jpg" 0%nat eq_refl).
Defined.

(** ** The life of a result entry *)

Lemma translater_worker_clock s : perf_counter (translater_worker s) = perf_counter s.
Proof.
  unfold translater_worker.
  destruct (worker s) as [|photo task|[|q rest]|task rest|]; auto.
  - destruct (translate_tasks s); auto.
  - destruct (handle_done (loop_tasks s) task); auto.
  - destruct (dict_get q (translate_result s)) as [[task t]|]; auto.
  - destruct (handle_done (loop_tasks s) task); auto.
Qed.

Lemma step_clock a s :
  consistent s -> (perf_counter s <= perf_counter (step a s))%Q.
Proof.
  intros Hc. destruct a as [src| |task o|d]; simpl; try lra.
  - rewrite translater_worker_clock. lra.
  - apply clock_advances. apply (clock_float s Hc).
Qed.

Lemma exec_clock l : forall s,
  consistent s -> (perf_counter s <= perf_counter (exec l s))%Q.
Proof.
  induction l as [|a l IH]; intros s Hc; simpl; [lra|].
  pose proof (step_clock a s Hc).
  pose proof (IH (step a s) (consistent_step a s Hc)). lra.
Qed.

Lemma stored_since_step a s p T :
  consistent s -> stored_since p T s ->
  (perf_counter (step a s) <= T + TRANSLATE_RESULT_TIMEOUT)%Q ->
  stored_since p T (step a s).
Proof.
  intros Hc [h [t [Hg Ht]]] Hclock. destruct a as [src| |task o|d];
    try (exists h, t; now auto).
  simpl in *. rewrite translater_worker_clock in Hclock.
  pose proof Hc as [Hk Hs Hr Hw Hfl]. unfold worker_ok in Hw.
  unfold translater_worker, stored_since.
  destruct (worker s) as [|photo task|[|q rest]|task rest|] eqn:Ew;
    try (exists h, t; now auto).
  - destruct (translate_tasks s); simpl; eauto.
  - destruct (handle_done (loop_tasks s) task); simpl; eauto.
    destruct (String.eqb_spec photo p) as [->|Hne].
    + rewrite dict_get_set_same. destruct (Hs p h t Hg) as [_ Hle].
      exists task, (perf_counter s). split; auto. lra.
    + rewrite dict_get_set_other by auto. eauto.
  - destruct Hw as [_ [Hnd Hall]].
    destruct (Hall q (or_introl eq_refl)) as [h' [t' [Hg' Ht']]].
    rewrite Hg'. simpl.
    destruct (String.eqb_spec q p) as [->|Hne].
    + exfalso. rewrite Hg in Hg'. inversion Hg'; subst. lra.
    + rewrite dict_get_del_other by auto. eauto.
Qed.

Lemma stored_since_exec l : forall s p T,
  consistent s -> stored_since p T s ->
  (perf_counter (exec l s) <= T + TRANSLATE_RESULT_TIMEOUT)%Q ->
  stored_since p T (exec l s).
Proof.
  induction l as [|a l IH]; intros s p T Hc Hst Hclock; simpl in *; auto.
  apply IH; auto using consistent_step.
  apply stored_since_step; auto.
  pose proof (exec_clock l (step a s) (consistent_step a s Hc)). lra.
Qed.







(** ** A failed backend call *)

Lemma resumptions_for_next tasks result objs now r :
  resumptions_to_dispatch (mkSys tasks result objs now (for_next r))
  = (length r + 1)%nat.
Proof. destruct r; reflexivity. Qed.

Lemma dispatched_kept l s n x :
  nth_error (dispatched s) n = Some x ->
  nth_error (dispatched (exec l s)) n = Some x.
Proof.
  intros Hn. destruct (exec_queue l s) as [more [Hd _]]. rewrite Hd.
  rewrite nth_error_app1; auto. apply nth_error_Some. congruence.
Qed.

(** With [next] at the head of the pending list and the worker not blocked
    on an unfinished backend call, [next] is dispatched once the worker has
    been resumed [resumptions_to_dispatch] times, whatever is interleaved. *)
Lemma head_gets_dispatched l next : forall s,
  consistent s ->
  (exists rest, translate_tasks s = next :: rest) ->
  (forall photo task, worker s = WPoll photo task ->
                      handle_done (loop_tasks s) task = true) ->
  (resumptions_to_dispatch s <= resumptions l)%nat ->
  nth_error (dispatched (exec l s)) (length (dispatched s)) = Some next.
Proof.
  induction l as [|a l IH]; intros s Hc [rest Ht] Hd Hlen.
  - exfalso. pose proof (worker_fine s Hc) as Hok.
    unfold worker_ok in Hok. unfold resumptions_to_dispatch in Hlen.
    simpl in Hlen. destruct (worker s) as [| | r | |]; try lia; contradiction.
  - assert (Hc' : consistent (step a s)) by now apply consistent_step.
    destruct a as [src| |task o|d]; cbn [exec].
    + replace (length (dispatched s)) with (length (dispatched (step (Submit src) s)))
        by reflexivity.
      apply IH; auto.
      simpl. rewrite Ht. simpl. eauto.
    + cbn [resumptions] in Hlen. cbn [step] in *.
      pose proof Hc as [Hk Hs Hr Hok Hfl]. unfold worker_ok in Hok.
      unfold resumptions_to_dispatch in Hlen.
      destruct (worker s) as [|photo task|[|q r]|task r|] eqn:Ew;
        try contradiction.
      * (* the head is taken *)
        apply dispatched_kept. unfold translater_worker. rewrite Ew, Ht. simpl.
        unfold dispatched. simpl. rewrite map_app, nth_error_app2;
          rewrite length_map; [|lia]. now rewrite Nat.sub_diag.
      * (* the result is stored *)
        assert (E : translater_worker s
                    = mkSys (translate_tasks s)
                        (dict_set photo (task, perf_counter s) (translate_result s))
                        (loop_tasks s) (perf_counter s)
                        (for_next (timeout_photos_of
                           (dict_set photo (task, perf_counter s) (translate_result s))
                           (perf_counter s))))
          by (unfold translater_worker; now rewrite Ew, (Hd photo task eq_refl)).
        replace (length (dispatched s)) with (length (dispatched (translater_worker s)))
          by now rewrite E.
        apply IH; auto.
        -- rewrite E. simpl. eauto.
        -- intros photo' task' Hx. rewrite E in Hx. simpl in Hx.
           now apply for_next_not_poll in Hx.
        -- rewrite E, resumptions_for_next.
           pose proof (timeout_photos_length
                         (dict_set photo (task, perf_counter s) (translate_result s))
                         (perf_counter s)).
           pose proof (dict_set_length (translate_result s) photo
                         (task, perf_counter s)).
           lia.
      * now destruct Hok.
      * (* one photo is reaped *)
        destruct Hok as [_ [Hnd Hall]].
        destruct (Hall q (or_introl eq_refl)) as [h [t [Hg _]]].
        assert (E : translater_worker s
                    = mkSys (translate_tasks s) (dict_del q (translate_result s))
                            (loop_tasks s) (perf_counter s) (for_next r))
          by (unfold translater_worker;
              now rewrite Ew, Hg, (stored_done s q h t Hc Hg)).
        replace (length (dispatched s)) with (length (dispatched (translater_worker s)))
          by now rewrite E.
        apply IH; auto.
        -- rewrite E. simpl. eauto.
        -- intros photo' task' Hx. rewrite E in Hx. simpl in Hx.
           now apply for_next_not_poll in Hx.
        -- rewrite E, resumptions_for_next. simpl in Hlen. lia.
    + replace (length (dispatched s))
        with (length (dispatched (step (Finish task o) s)))
        by (unfold dispatched; simpl; now rewrite finish_task_src).
      apply IH; auto.
      * simpl. eauto.
      * intros photo' task' Hx. simpl in *. apply handle_done_finish. eauto.
    + replace (length (dispatched s)) with (length (dispatched (step (Tick d) s)))
        by reflexivity.
      apply IH; auto.
      simpl. eauto.
Qed.

Lemma consistent_alive s : consistent s -> worker s <> WDead.
Proof.
  intros Hc Hw. pose proof (worker_fine s Hc) as Hok.
  unfold worker_ok in Hok. now rewrite Hw in Hok.
Qed.

(** C3: in any reachable state where the worker polls a backend call that
    has ended with an exception, its next resumption stores the task, with
    the exception in it, in [translate_result] under the job's path; a
    caller fetching that path then gets the "translation failed" answer; the
    worker is never left dead by an exception, whatever is scheduled
    afterwards; and the job at the head of the pending list has its backend
    call made, right after the failed one, once the worker has been resumed
    "entries in the store plus three" times, under any interleaving. *)
Theorem backend_failure_is_recorded_and_isolated :
  forall (l : list action) (photo : Path) (task : handle) (exc : string),
    worker (exec l init) = WPoll photo task ->
    nth_error (loop_tasks (exec l init)) task
    = Some (mkTask photo (Some (Raised exc))) ->
    dict_get photo (translate_result (translater_worker (exec l init)))
    = Some (task, perf_counter (exec l init))
    /\ run_resume (translater_worker (exec l init)) (CFetch photo)
       = (CEnd, [reply_message Failed])
    /\ (forall l2, worker (exec l2 (exec l init)) <> WDead)
    /\ (forall l2 next rest,
           translate_tasks (exec l init) = next :: rest ->
           (length (translate_result (exec l init)) + 3 <= resumptions l2)%nat ->
           nth_error (dispatched (exec l2 (exec l init)))
                     (length (dispatched (exec l init)))
           = Some next).
Proof.
  intros l photo task exc Hw Hn. pose proof (reachable_consistent l) as Hc.
  set (s := exec l init) in *.
  assert (Hd : handle_done (loop_tasks s) task = true)
    by (eapply ended_done; eauto).
  assert (E : translater_worker s
              = mkSys (translate_tasks s)
                  (dict_set photo (task, perf_counter s) (translate_result s))
                  (loop_tasks s) (perf_counter s)
                  (for_next (timeout_photos_of
                     (dict_set photo (task, perf_counter s) (translate_result s))
                     (perf_counter s))))
    by (unfold translater_worker; now rewrite Hw, Hd).
  split; [|split; [|split]].
  - rewrite E. simpl. apply dict_get_set_same.
  - rewrite E. simpl. rewrite dict_get_set_same. unfold await_result.
    now rewrite Hn.
  - intros l2. apply consistent_alive. now apply consistent_exec.
  - intros l2 next rest Ht Hlen. apply head_gets_dispatched; eauto.
    + intros photo' task' Hx. rewrite Hw in Hx. now inversion Hx; subst.
    + unfold resumptions_to_dispatch. now rewrite Hw.
Qed.

(** The backend call on [a.jpg] times out while [b.jpg] is pending: the
    failure is stored under [a.jpg], and three resumptions later the backend
    has been called on [b.jpg]. *)
Lemma backend_failure_is_recorded_and_isolated_witness :
  dict_get "a.jpg"
    (translate_result
       (translater_worker
          (exec [Submit "a.jpg"; Worker; Submit "b.jpg";
                 Finish 0 (Raised "ReadTimeout")] init)))
  = Some (0%nat, 0%Q)
  /\ nth_error
       (dispatched
          (exec [Worker; Submit "c.jpg"; Worker; Worker]
             (exec [Submit "a.jpg"; Worker; Submit "b.jpg";
                    Finish 0 (Raised "ReadTimeout")] init)))
       1
     = Some "b.jpg".
Proof.
  split.
  - apply (proj1 (backend_failure_is_recorded_and_isolated
                    [Submit "a.jpg"; Worker; Submit "b.jpg";
                     Finish 0 (Raised "ReadTimeout")]
                    "a.jpg" 0%nat "ReadTimeout" eq_refl eq_refl)).
  - apply (proj2 (proj2 (proj2 (backend_failure_is_recorded_and_isolated
                    [Submit "a.jpg"; Worker; Submit "b.jpg";
                     Finish 0 (Raised "ReadTimeout")]
                    "a.jpg" 0%nat "ReadTimeout" eq_refl eq_refl)))
                 [Worker; Submit "c.jpg"; Worker; Worker] "b.jpg" []).
    + reflexivity.
    + simpl. lia.
Defined.

(** ** Waiting for a result *)





(** ** The position loop never yields on an unchanged position *)

(** X1: a caller in the position loop that finds its path at the non-zero
    position it last saw reaches no suspension point, whatever the number of
    iterations: it never hands control back to the event loop, so neither
    the worker nor anything else can run and change that position. *)
Theorem position_loop_spins_on_unchanged_position :
  forall (s : sys) (saved_file_path : Path) (idx : nat),
    idx <> 0%nat ->
    translate_task_index saved_file_path (translate_tasks s) = Some idx ->
    forall fuel, caller_slice fuel s (CQueue saved_file_path idx) = None.
Proof.
  intros s p idx Hidx Hpos fuel.
  assert (Hs : suspends s (CQueue p idx) = false).
  { simpl. apply Nat.eqb_neq in Hidx. rewrite Hidx, Hpos.
    destruct idx; [discriminate|]. now rewrite Nat.eqb_refl. }
  assert (Hr : run_resume s (CQueue p idx) = (CQueue p idx, [])).
  { simpl. apply Nat.eqb_neq in Hidx. rewrite Hidx, Hpos.
    destruct idx; [discriminate|]. now rewrite Nat.eqb_refl. }
  induction fuel as [|fuel IH]; [reflexivity|].
  cbn [caller_slice]. now rewrite Hs, Hr.
Qed.

(** A third job submitted while the first is with the backend and the second
    is pending gets index 1, finds itself at position 1, and spins. *)
Lemma position_loop_spins_on_unchanged_position_witness :
  snd (fst (run_begin (inr "c.jpg") (fun _ => true)
              (exec [Submit "a.jpg"; Worker; Submit "b.jpg"] init)))
  = CQueue "c.jpg" 1
  /\ caller_slice 1000
       (fst (fst (run_begin (inr "c.jpg") (fun _ => true)
                    (exec [Submit "a.jpg"; Worker; Submit "b.jpg"] init))))
       (CQueue "c.jpg" 1)
     = None.
Proof.
  split; [reflexivity|].
  apply (position_loop_spins_on_unchanged_position
           (fst (fst (run_begin (inr "c.jpg") (fun _ => true)
                        (exec [Submit "a.jpg"; Worker; Submit "b.jpg"] init))))
           "c.jpg" 1); [discriminate | reflexivity].
Defined.

(** * Further properties of the code *)

(** ** The worker stays alive and never blocks in the reaper *)

(** X2: in every reachable state the worker is suspended at the sleep of
    line 60, of line 66 or of line 76: the lookup of line 77 never raises
    [KeyError] (the worker is never dead) and the [await task] of line 80
    never has to wait, because every stored task has ended.  While the
    worker is at line 76, the photos left to reap are distinct keys of
    [translate_result]. *)
Theorem worker_never_dead_nor_blocked :
  forall (l : list action),
    worker (exec l init) <> WDead
    /\ (forall task rest, worker (exec l init) <> WAwait task rest)
    /\ (forall timeout_photos,
           worker (exec l init) = WReap timeout_photos ->
           NoDup timeout_photos
           /\ forall q, In q timeout_photos ->
                        dict_mem q (translate_result (exec l init)) = true).
Proof.
  intros l. pose proof (reachable_consistent l) as Hc.
  pose proof (worker_fine _ Hc) as Hok. unfold worker_ok in Hok.
  split; [|split].
  - intros Hw. now rewrite Hw in Hok.
  - intros task rest Hw. now rewrite Hw in Hok.
  - intros r Hw. rewrite Hw in Hok. destruct Hok as [_ [Hnd Hall]].
    split; auto. intros q Hq. destruct (Hall q Hq) as [h [t [Hg _]]].
    unfold dict_mem. now rewrite Hg.
Qed.

(** ** Fetching a result *)

(** X3: in every reachable state a caller past the result loop is done at
    once: the fetch of lines 237-245 ends [run], the [await task] of line
    239 never waits.  When the stored backend call returned a path, the
    caller opens it and sends the photo, and when [open] cannot open that
    path the exception leaves [run] and nothing is sent; when the stored
    call raised, or the entry is gone, the caller sends "translation
    failed".  The stored call is the one made on the caller's own path. *)
Theorem fetch_answers_at_once :
  forall (readable : Path -> bool) (l : list action) (saved_file_path : Path),
    (forall task t,
        dict_get saved_file_path (translate_result (exec l init))
        = Some (task, t) ->
        exists o,
          nth_error (loop_tasks (exec l init)) task
          = Some (mkTask saved_file_path (Some o))
          /\ run_resume_open readable (exec l init) (CFetch saved_file_path)
             = match o with
               | Returned translated_file_path =>
                   if readable translated_file_path
                   then (CEnd, [reply_photo translated_file_path])
                   else (CRaised, [])
               | Raised _ => (CEnd, [reply_message Failed])
               end)
    /\ (dict_get saved_file_path (translate_result (exec l init)) = None ->
        run_resume_open readable (exec l init) (CFetch saved_file_path)
        = (CEnd, [reply_message Failed]))
    /\ (fst (run_resume_open readable (exec l init) (CFetch saved_file_path))
        = CEnd
        \/ fst (run_resume_open readable (exec l init) (CFetch saved_file_path))
           = CRaised).
Proof.
  intros readable l p. pose proof (reachable_consistent l) as Hc.
  set (s := exec l init) in *. unfold run_resume_open. cbn [run_resume].
  destruct (dict_get p (translate_result s)) as [[task t]|] eqn:Hg.
  - destruct (stored_ended s Hc p task t Hg) as [[o Ho] _].
    assert (E : open_translated readable (await_result (loop_tasks s) task)
                = match o with
                  | Returned tp =>
                      if readable tp then (CEnd, [reply_photo tp])
                      else (CRaised, [])
                  | Raised _ => (CEnd, [reply_message Failed])
                  end).
    { unfold await_result. rewrite Ho. destruct o as [tp|exc]; auto. }
    split; [|split].
    + intros task' t' [= <- <-]. exists o. split; auto.
    + discriminate.
    + rewrite E. destruct o as [tp|exc]; [destruct (readable tp)|]; auto.
  - split; [discriminate | split; [reflexivity | now left]].
Qed.

(** X4: a backend call that returns is delivered to its caller unchanged.
    When the worker polls the call made on [photo] and that call has
    returned [translated_file_path], the worker's next resumption stores it
    with the current clock reading, and a caller in the result loop for
    [photo] then leaves the loop, deletes its progress message and opens
    that path: it sends exactly that photo, or, when [open] cannot open the
    path, [run] ends by the exception with the progress message deleted and
    nothing sent in its place. *)
Theorem returned_photo_reaches_caller :
  forall (readable : Path -> bool) (l : list action) (photo : Path)
         (task : handle) (translated_file_path : Path),
    worker (exec l init) = WPoll photo task ->
    nth_error (loop_tasks (exec l init)) task
    = Some (mkTask photo (Some (Returned translated_file_path))) ->
    dict_get photo (translate_result (translater_worker (exec l init)))
    = Some (task, perf_counter (exec l init))
    /\ caller_run_open readable
         [translater_worker (exec l init); translater_worker (exec l init)]
         (CResult photo)
       = if readable translated_file_path
         then (CEnd, [delete_last_message; reply_photo translated_file_path])
         else (CRaised, [delete_last_message]).
Proof.
  intros readable l photo task tp Hw Hn. set (s := exec l init) in *.
  assert (Hd : handle_done (loop_tasks s) task = true)
    by (eapply ended_done; eauto).
  assert (E : translater_worker s
              = mkSys (translate_tasks s)
                  (dict_set photo (task, perf_counter s) (translate_result s))
                  (loop_tasks s) (perf_counter s)
                  (for_next (timeout_photos_of
                     (dict_set photo (task, perf_counter s) (translate_result s))
                     (perf_counter s))))
    by (unfold translater_worker; now rewrite Hw, Hd).
  split.
  - rewrite E. simpl. apply dict_get_set_same.
  - assert (H1 : run_resume_open readable (translater_worker s) (CResult photo)
                 = (CFetch photo, [delete_last_message])).
    { rewrite E. unfold run_resume_open. cbn [run_resume translate_result].
      unfold result_poll, dict_mem.
      cbn [translate_result]. now rewrite dict_get_set_same. }
    assert (H2 : run_resume_open readable (translater_worker s) (CFetch photo)
                 = if readable tp then (CEnd, [reply_photo tp])
                   else (CRaised, [])).
    { rewrite E. unfold run_resume_open.
      cbn [run_resume translate_result loop_tasks].
      rewrite dict_get_set_same. unfold await_result. rewrite Hn.
      unfold open_translated. cbn [fst snd]. now destruct (readable tp). }
    cbn [caller_run_open]. rewrite H1, H2. now destruct (readable tp).
Qed.

(** The backend returns the translation of [a.jpg]; the caller sends it
    when the file is there, and ends by the exception when it is not. *)
Lemma returned_photo_reaches_caller_witness :
  caller_run_open (fun _ => true)
    [translater_worker
       (exec [Submit "a.jpg"; Worker; Finish 0 (Returned "translated/a.jpg")]
             init);
     translater_worker
       (exec [Submit "a.jpg"; Worker; Finish 0 (Returned "translated/a.jpg")]
             init)]
    (CResult "a.jpg")
  = (CEnd, [delete_last_message; reply_photo "translated/a.jpg"])
  /\ caller_run_open (fun _ => false)
       [translater_worker
          (exec [Submit "a.jpg"; Worker; Finish 0 (Returned "translated/a.jpg")]
                init);
        translater_worker
          (exec [Submit "a.jpg"; Worker; Finish 0 (Returned "translated/a.jpg")]
                init)]
       (CResult "a.jpg")
     = (CRaised, [delete_last_message]).
Proof.
  split.
  - exact (proj2 (returned_photo_reaches_caller (fun _ => true)
                    [Submit "a.jpg"; Worker;
                     Finish 0 (Returned "translated/a.jpg")]
                    "a.jpg" 0%nat "translated/a.jpg" eq_refl eq_refl)).
  - exact (proj2 (returned_photo_reaches_caller (fun _ => false)
                    [Submit "a.jpg"; Worker;
                     Finish 0 (Returned "translated/a.jpg")]
                    "a.jpg" 0%nat "translated/a.jpg" eq_refl eq_refl)).
Defined.

(** ** A whole reap pass *)

Lemma filter_twice {A : Type} (f g : A -> bool) (l : list A) :
  filter g (filter f l) = filter (fun x => f x && g x) l.
Proof.
  induction l as [|x r IH]; simpl; auto.
  destruct (f x); simpl; [destruct (g x)|]; now rewrite IH.
Qed.

(** Deleting the keys of [r] one after the other keeps the items whose key
    is not in [r], in their order. *)
Lemma dict_del_all {V : Type} (r : list Path) : forall (d : dict V),
  fold_left (fun d q => dict_del q d) r d
  = filter (fun kv => negb (existsb (String.eqb (fst kv)) r)) d.
Proof.
  induction r as [|q r IH]; intros d; simpl.
  - induction d as [|kv d IHd]; simpl; [reflexivity | now rewrite <- IHd].
  - rewrite IH. unfold dict_del. rewrite filter_twice.
    apply filter_ext. intros kv. now rewrite negb_orb.
Qed.

Lemma timeout_photos_mem result now k v :
  NoDup (dict_keys result) -> In (k, v) result ->
  existsb (String.eqb k) (timeout_photos_of result now)
  = Qltb (float_add (snd v) TRANSLATE_RESULT_TIMEOUT) now.
Proof.
  intros Hnd Hin. destruct v as [h t]. simpl.
  pose proof (dict_item_get _ _ _ Hnd Hin) as Hg.
  destruct (Qltb (float_add t TRANSLATE_RESULT_TIMEOUT) now) eqn:E.
  - apply existsb_exists. exists k. split; [|apply String.eqb_refl].
    apply Qltb_lt in E. eapply timeout_photos_complete; eauto.
  - destruct (existsb (String.eqb k) (timeout_photos_of result now)) eqn:Ex; auto.
    apply existsb_exists in Ex. destruct Ex as [k' [Hin' Heq]].
    apply String.eqb_eq in Heq. subst k'.
    destruct (timeout_photos_float _ _ _ Hnd Hin') as [h' [t' [Hg' Ht']]].
    rewrite Hg in Hg'. inversion Hg'; subst.
    apply Qltb_lt in Ht'. congruence.
Qed.

(** From line 76 with [r] left to reap, [length r] resumptions delete the
    entries of [r] and bring the worker back to the sleep of line 60. *)
Lemma reap_pass r : forall s,
  consistent s -> worker s = WReap r ->
  exec (repeat Worker (length r)) s
  = mkSys (translate_tasks s)
          (fold_left (fun d q => dict_del q d) r (translate_result s))
          (loop_tasks s) (perf_counter s) WSleep.
Proof.
  induction r as [|q r IH]; intros s Hc Hw.
  - exfalso. pose proof (worker_fine s Hc) as Hok. unfold worker_ok in Hok.
    rewrite Hw in Hok. now destruct Hok.
  - pose proof (worker_fine s Hc) as Hok. unfold worker_ok in Hok.
    rewrite Hw in Hok. destruct Hok as [_ [_ Hall]].
    destruct (Hall q (or_introl eq_refl)) as [h [t [Hg _]]].
    assert (E : step Worker s
                = mkSys (translate_tasks s) (dict_del q (translate_result s))
                        (loop_tasks s) (perf_counter s) (for_next r)).
    { simpl. unfold translater_worker.
      now rewrite Hw, Hg, (stored_done s q h t Hc Hg). }
    cbn [length repeat exec]. destruct r as [|q' r'].
    + rewrite E. reflexivity.
    + rewrite (IH (step Worker s)).
      * rewrite E. reflexivity.
      * now apply consistent_step.
      * rewrite E. reflexivity.
Qed.

(** X5: what one publish and its reap pass do to the result store.  When the
    worker finds the backend call on [photo] ended at clock reading [now],
    then after one resumption to store it and one resumption per expired
    entry the worker is back at the sleep of line 60 and [translate_result]
    holds, in their order, exactly the entries of the store with [photo]
    set to [(task, now)] whose stamp [t] does not satisfy the test of
    line 73, [t + TRANSLATE_RESULT_TIMEOUT < now] with the sum rounded as a
    float addition; the entry just stored is among them.  The pending list,
    the tasks and the clock are untouched. *)
Theorem publish_and_reap_pass :
  forall (l : list action) (photo : Path) (task : handle),
    worker (exec l init) = WPoll photo task ->
    handle_done (loop_tasks (exec l init)) task = true ->
    exec (repeat Worker
            (S (length (timeout_photos_of
                          (dict_set photo (task, perf_counter (exec l init))
                             (translate_result (exec l init)))
                          (perf_counter (exec l init))))))
         (exec l init)
    = mkSys (translate_tasks (exec l init))
        (filter (fun kv => negb (Qltb (float_add (snd (snd kv))
                                                 TRANSLATE_RESULT_TIMEOUT)
                                      (perf_counter (exec l init))))
           (dict_set photo (task, perf_counter (exec l init))
              (translate_result (exec l init))))
        (loop_tasks (exec l init)) (perf_counter (exec l init)) WSleep
    /\ dict_get photo
         (filter (fun kv => negb (Qltb (float_add (snd (snd kv))
                                                  TRANSLATE_RESULT_TIMEOUT)
                                       (perf_counter (exec l init))))
            (dict_set photo (task, perf_counter (exec l init))
               (translate_result (exec l init))))
       = Some (task, perf_counter (exec l init)).
Proof.
  intros l photo task Hw Hd. pose proof (reachable_consistent l) as Hc.
  set (s := exec l init) in *. set (now := perf_counter s).
  set (result' := dict_set photo (task, now) (translate_result s)).
  assert (E : step Worker s
              = mkSys (translate_tasks s) result' (loop_tasks s) now
                      (for_next (timeout_photos_of result' now)))
    by (simpl; unfold translater_worker; now rewrite Hw, Hd).
  assert (Hc' : consistent (step Worker s)) by now apply consistent_step.
  assert (Hk : NoDup (dict_keys result'))
    by (rewrite E in Hc'; exact (keys_unique _ Hc')).
  assert (Hf : fold_left (fun d q => dict_del q d)
                         (timeout_photos_of result' now) result'
               = filter (fun kv => negb (Qltb (float_add (snd (snd kv))
                                                          TRANSLATE_RESULT_TIMEOUT)
                                               now))
                        result').
  { rewrite dict_del_all. apply filter_ext_in. intros [k v] Hin.
    simpl. now rewrite (timeout_photos_mem result' now k v Hk Hin). }
  split.
  - cbn [repeat exec].
    destruct (timeout_photos_of result' now) as [|q r] eqn:Et.
    + rewrite E. simpl. now rewrite <- Hf.
    + rewrite (reap_pass (q :: r) (step Worker s) Hc').
      * rewrite E. simpl. rewrite <- Hf. reflexivity.
      * rewrite E. reflexivity.
  - apply dict_item_get.
    + unfold dict_keys. clear Hf E Hc'.
      induction result' as [|[k v] d IH]; simpl; [constructor|].
      inversion Hk as [|? ? Hnotin Hk']; subst.
      destruct (Qltb (float_add (snd v) TRANSLATE_RESULT_TIMEOUT) now);
        simpl; auto.
      constructor; auto. intros Hin. apply Hnotin.
      apply in_map_iff in Hin. destruct Hin as [kv [Hkv Hin]].
      apply filter_In in Hin. rewrite <- Hkv. apply in_map. tauto.
    + apply filter_In. split.
      * assert (Hg : dict_get photo result' = Some (task, now))
          by apply dict_get_set_same.
        clear - Hg. induction result' as [|[k v] d IH]; simpl in *;
          [discriminate|].
        destruct (String.eqb_spec k photo) as [->|Hne].
        -- inversion Hg; subst. now left.
        -- right. auto.
      * simpl. apply negb_true_iff.
        destruct (Qltb (float_add now TRANSLATE_RESULT_TIMEOUT) now) eqn:Eq;
          auto.
        apply Qltb_lt in Eq.
        apply float_test_exact in Eq; [|exact (clock_float s Hc)].
        unfold TRANSLATE_RESULT_TIMEOUT in Eq. lra.
Qed.

(** Three results are stored at 0, 0 and 700; when a fourth call is seen
    ended at 700 the two old entries go and the two recent ones stay.  And
    an entry stamped with the float of 0.1 stays when the next call is seen
    ended at the float of 600.1, a reading above the exact sum of the stamp
    and 600 and equal to their float sum. *)
Lemma publish_and_reap_pass_witness :
  translate_result
    (exec (repeat Worker 3)
       (exec [Submit "a.jpg"; Submit "b.jpg"; Submit "c.jpg"; Submit "d.jpg";
              Worker; Finish 0 (Returned "translated/a.jpg"); Worker;
              Worker; Finish 1 (Raised "ReadTimeout"); Worker; Tick 700;
              Worker; Finish 2 (Returned "translated/c.jpg"); Worker;
              Worker; Worker;
              Worker; Finish 3 (Returned "translated/d.jpg")] init))
  = [("c.jpg", (2%nat, 700%Q)); ("d.jpg", (3%nat, 700%Q))]
  /\ dict_keys
       (translate_result
          (exec (repeat Worker 1)
             (exec [Tick (1 # 10); Submit "a.jpg"; Worker;
                    Finish 0 (Returned "translated/a.jpg"); Worker; Tick 600;
                    Submit "b.jpg"; Worker;
                    Finish 1 (Returned "translated/b.jpg")] init)))
     = ["a.jpg"; "b.jpg"]
  /\ Qlt (fl (1 # 10) + TRANSLATE_RESULT_TIMEOUT)
         (perf_counter
            (exec [Tick (1 # 10); Submit "a.jpg"; Worker;
                   Finish 0 (Returned "translated/a.jpg"); Worker; Tick 600;
                   Submit "b.jpg"; Worker;
                   Finish 1 (Returned "translated/b.jpg")] init)).
Proof.
  split; [|split].
  - pose proof (proj1 (publish_and_reap_pass
           [Submit "a.jpg"; Submit "b.jpg"; Submit "c.jpg"; Submit "d.jpg";
            Worker; Finish 0 (Returned "translated/a.jpg"); Worker;
            Worker; Finish 1 (Raised "ReadTimeout"); Worker; Tick 700;
            Worker; Finish 2 (Returned "translated/c.jpg"); Worker;
            Worker; Worker;
            Worker; Finish 3 (Returned "translated/d.jpg")]
           "d.jpg" 3%nat eq_refl eq_refl)) as H.
    exact (f_equal translate_result H).
  - pose proof (proj1 (publish_and_reap_pass
           [Tick (1 # 10); Submit "a.jpg"; Worker;
            Finish 0 (Returned "translated/a.jpg"); Worker; Tick 600;
            Submit "b.jpg"; Worker; Finish 1 (Returned "translated/b.jpg")]
           "b.jpg" 1%nat eq_refl eq_refl)) as H.
    exact (f_equal (fun st => dict_keys (translate_result st)) H).
  - apply Qltb_lt. vm_compute. reflexivity.
Defined.

(** ** Which photos enter the pending list *)

Ltac handler_case :=
  unfold run_begin; simpl;
  repeat (split || intro);
  repeat match goal with
         | H : exists _, _ |- _ => destruct H
         | H : _ /\ _ |- _ => destruct H
         end;
  congruence.

(** X6: the handler appends to [translate_tasks] exactly when the update
    carries a message with a sender and at least one photo size, Telegram
    answers [get_file] for the last size, the reported size is not above
    1048576, the download succeeds and the file is then on disk (first
    part).  It then appends the save path once, at the tail, and the first
    message is "processing has started" when nothing was pending (whatever
    the worker is doing at that moment) and "queued, n ahead" with n the
    number of pending jobs otherwise (second part).  Each way of not being
    valid has its own end, with the shared state untouched: an update
    without a message, a message without a sender and a failing [get_file]
    end the handler by an exception with nothing sent; no photo size, a
    size above 1048576, a failed download and a file that is not on disk
    each send their one text and return (third and fourth parts). *)
Theorem photo_enqueued_iff_valid :
  forall (bot : Bot) (on_disk : Path -> bool) (update_message : option Message)
         (s : sys),
    (translate_tasks
       (fst (fst (Handlers.save_photo bot on_disk update_message s)))
     <> translate_tasks s
     <-> exists message user sized file,
           update_message = Some message
           /\ from_user message = Some user
           /\ last_item (photo message) = Some sized
           /\ get_file bot (file_id sized) = Some file
           /\ oversized (file_size file) = None
           /\ download_to_drive bot (save_path_of message user) = true
           /\ on_disk (save_path_of message user) = true)
    /\ (forall message user sized file,
           update_message = Some message ->
           from_user message = Some user ->
           last_item (photo message) = Some sized ->
           get_file bot (file_id sized) = Some file ->
           oversized (file_size file) = None ->
           download_to_drive bot (save_path_of message user) = true ->
           on_disk (save_path_of message user) = true ->
           Handlers.save_photo bot on_disk update_message s
           = (step (Submit (save_path_of message user)) s,
              CQueue (save_path_of message user) (length (translate_tasks s)),
              [edit_or_reply_message
                 match translate_tasks s with
                 | [] => Started
                 | _ :: _ => Queued (length (translate_tasks s))
                 end]))
    /\ (update_message = None ->
        Handlers.save_photo bot on_disk update_message s = (s, CRaised, []))
    /\ (forall message,
           update_message = Some message ->
           (from_user message = None ->
            Handlers.save_photo bot on_disk update_message s
            = (s, CRaised, []))
           /\ (forall user,
                  from_user message = Some user ->
                  (last_item (photo message) = None ->
                   Handlers.save_photo bot on_disk update_message s
                   = (s, CEnd, [reply_message NoPhoto]))
                  /\ (forall sized,
                         last_item (photo message) = Some sized ->
                         (get_file bot (file_id sized) = None ->
                          Handlers.save_photo bot on_disk update_message s
                          = (s, CRaised, []))
                         /\ (forall file,
                                get_file bot (file_id sized) = Some file ->
                                (forall n,
                                    oversized (file_size file) = Some n ->
                                    Handlers.save_photo bot on_disk
                                      update_message s
                                    = (s, CEnd, [reply_message TooBig]))
                                /\ (oversized (file_size file) = None ->
                                    download_to_drive bot
                                      (save_path_of message user) = false ->
                                    Handlers.save_photo bot on_disk
                                      update_message s
                                    = (s, CEnd, [reply_message SaveFailed]))
                                /\ (oversized (file_size file) = None ->
                                    download_to_drive bot
                                      (save_path_of message user) = true ->
                                    on_disk (save_path_of message user)
                                    = false ->
                                    Handlers.save_photo bot on_disk
                                      update_message s
                                    = (s, CEnd, [reply_message NotOnDisk])))))).
Proof.
  intros bot on_disk [message|] s; simpl; [|handler_case].
  unfold run_start, save_photo.
  destruct (from_user message) as [user|] eqn:Hu; [|handler_case].
  destruct (last_item (photo message)) as [sized|] eqn:Hl; [|handler_case].
  destruct (get_file bot (file_id sized)) as [file|] eqn:Hg; [|handler_case].
  destruct (oversized (file_size file)) as [n|] eqn:Ho; [handler_case|].
  destruct (download_to_drive bot (save_path_of message user)) eqn:Hd;
    [|handler_case].
  unfold run_begin.
  destruct (on_disk (save_path_of message user)) eqn:Hdisk; simpl;
    [|handler_case].
  assert (Hlen : (length (translate_tasks s ++ [save_path_of message user]) - 1
                  = length (translate_tasks s))%nat)
    by (rewrite length_app; simpl; lia).
  split; [|split; [|handler_case]].
  - split.
    + intros _. exists message, user, sized, file. auto 10.
    + intros _ H. apply (f_equal (@length Path)) in H.
      rewrite length_app in H. simpl in H. lia.
  - intros message0 user0 sized0 file0 Hm0 Hu0 _ _ _ _ _.
    assert (message0 = message) by congruence. subst message0.
    assert (user0 = user) by congruence. subst user0.
    rewrite Hlen. destruct (translate_tasks s); reflexivity.
Qed.

(** A photo of 2 MiB is refused with its own text; the same photo at 1 MiB
    enters the empty pending list, and the handler says that processing has
    started. *)
Lemma photo_enqueued_examples :
  Handlers.save_photo
    (mkBot (fun _ => Some (mkFile (Some 2097152%Z))) (fun _ => true))
    (fun _ => true)
    (Some (mkMessage (Some (mkUser (Some "neko"))) 7 (-1001)
             [mkPhotoSize "small"; mkPhotoSize "large"]))
    init
  = (init, CEnd, [reply_message TooBig])
  /\ Handlers.save_photo
       (mkBot (fun _ => Some (mkFile (Some 1048576%Z))) (fun _ => true))
       (fun _ => true)
       (Some (mkMessage (Some (mkUser (Some "neko"))) 7 (-1001)
                [mkPhotoSize "small"; mkPhotoSize "large"]))
       init
     = (mkSys ["saved/neko_-1001_7.jpg"] [] [] 0 WSleep,
        CQueue "saved/neko_-1001_7.jpg" 0,
        [edit_or_reply_message Started]).
Proof. split; reflexivity. Qed.

(** ** Save paths and translated paths *)

Lemma append_assoc_string (a b c : string) :
  ((a ++ b) ++ c = a ++ (b ++ c))%string.
Proof. induction a as [|x a IH]; simpl; congruence. Qed.

Lemma has_char_app c (a b : string) :
  has_char c (a ++ b)%string = has_char c a || has_char c b.
Proof.
  induction a as [|x a IH]; simpl; auto. rewrite IH. now rewrite orb_assoc.
Qed.

(** The text after the last occurrence of a character determines the text
    before it. *)
Lemma split_at_last c : forall (a a' b b' : string),
  has_char c b = false -> has_char c b' = false ->
  (a ++ String c b = a' ++ String c b')%string ->
  a = a' /\ b = b'.
Proof.
  induction a as [|x a IH]; intros [|y a'] b b' Hb Hb' Heq; simpl in Heq.
  - inversion Heq. auto.
  - inversion Heq; subst. rewrite has_char_app in Hb. simpl in Hb.
    rewrite Ascii.eqb_refl in Hb. simpl in Hb.
    now rewrite orb_true_r in Hb.
  - inversion Heq; subst. rewrite has_char_app in Hb'. simpl in Hb'.
    rewrite Ascii.eqb_refl in Hb'. simpl in Hb'.
    now rewrite orb_true_r in Hb'.
  - inversion Heq; subst. destruct (IH a' b b' Hb Hb' H1). subst. auto.
Qed.

Lemma uint_has_no_separator c d :
  (c = "_" \/ c = "/" \/ c = ".")%char ->
  has_char c (NilEmpty.string_of_uint d) = false.
Proof.
  intros Hc. induction d; simpl; auto;
    destruct Hc as [->|[->| ->]]; simpl; auto.
Qed.

Lemma str_of_int_has_no_separator c n :
  (c = "_" \/ c = "/" \/ c = ".")%char -> has_char c (str_of_int n) = false.
Proof.
  intros Hc. unfold str_of_int.
  assert (Hu : forall d, has_char c (NilZero.string_of_uint d) = false).
  { intros d. destruct d; try apply (uint_has_no_separator c _ Hc).
    simpl. destruct Hc as [->|[->| ->]]; reflexivity. }
  destruct (Z.to_int n) as [d|d]; simpl; auto.
  rewrite Hu. destruct Hc as [->|[->| ->]]; reflexivity.
Qed.

Lemma str_of_int_inj n m : str_of_int n = str_of_int m -> n = m.
Proof.
  unfold str_of_int. intros H. apply to_int_inj.
  assert (Hnn : forall z, Z.to_int z <> Pos Nil /\ Z.to_int z <> Neg Nil).
  { intros [|p|p]; simpl; split; try discriminate;
      intros [= E]; now apply Unsigned.to_uint_nonnil in E. }
  destruct (Hnn n) as [Hn1 Hn2]. destruct (Hnn m) as [Hm1 Hm2].
  pose proof (NilZero.isi _ Hn1 Hn2) as En.
  pose proof (NilZero.isi _ Hm1 Hm2) as Em.
  rewrite H in En. congruence.
Qed.

(** *** Joining plain names *)

(** A name that is one path component: no "/", not empty, not ".". *)
Lemma split_slash_plain s : has_char "/" s = false -> split_slash s = [s].
Proof.
  induction s as [|c r IH]; simpl; auto.
  intros H. apply orb_false_iff in H. destruct H as [Hc Hr].
  rewrite Hc, (IH Hr). reflexivity.
Qed.

Lemma split_slash_cons s : exists x l, split_slash s = x :: l.
Proof.
  induction s as [|c r [x [l IH]]]; simpl; eauto.
  destruct (Ascii.eqb c "/"); eauto. rewrite IH. eauto.
Qed.

Lemma split_slash_app (a b : string) :
  split_slash (a ++ String "/" b)%string = (split_slash a ++ split_slash b)%list.
Proof.
  induction a as [|c a IH]; simpl; auto.
  destruct (Ascii.eqb c "/"); rewrite IH; auto.
  destruct (split_slash_cons a) as [x [l ->]]. reflexivity.
Qed.

Lemma parts_plain s :
  has_char "/" s = false -> s <> EmptyString -> s <> "."%string ->
  parts s = [s].
Proof.
  intros Hs He Hd. unfold parts. rewrite split_slash_plain by auto. simpl.
  destruct (String.eqb_spec s ""); [contradiction|].
  destruct (String.eqb_spec s "."); [contradiction|]. reflexivity.
Qed.

Lemma plain_relative s : has_char "/" s = false -> starts_with_slash s = false.
Proof.
  destruct s as [|c r]; simpl; auto. intros H.
  apply orb_false_iff in H. tauto.
Qed.

Lemma plain_rootless s : has_char "/" s = false -> root_of s = EmptyString.
Proof.
  destruct s as [|c r]; simpl; auto. intros H.
  apply orb_false_iff in H. destruct H as [-> _]. reflexivity.
Qed.

(** Under a one-component directory a one-component name is joined by a
    "/". *)
Lemma path_join_plain dir file :
  has_char "/" dir = false -> dir <> EmptyString -> dir <> "."%string ->
  has_char "/" file = false -> file <> EmptyString -> file <> "."%string ->
  path_join dir file = (dir ++ String "/" file)%string.
Proof.
  intros Hd Hd1 Hd2 Hf Hf1 Hf2. unfold path_join.
  rewrite (plain_relative file Hf), (plain_rootless dir Hd).
  rewrite !parts_plain by auto. reflexivity.
Qed.

Lemma name_joined dir file :
  has_char "/" dir = false -> dir <> EmptyString -> dir <> "."%string ->
  has_char "/" file = false -> file <> EmptyString -> file <> "."%string ->
  name (dir ++ String "/" file)%string = file.
Proof.
  intros Hd Hd1 Hd2 Hf Hf1 Hf2. unfold name, parts.
  rewrite split_slash_app, filter_app.
  fold (parts dir). fold (parts file). rewrite !parts_plain by auto.
  reflexivity.
Qed.

Lemma append_inj_l (a b b' : string) :
  (a ++ b = a ++ b')%string -> b = b'.
Proof. induction a as [|c a IH]; simpl; intros H; [auto | inversion H; auto]. Qed.

(** A string with an underscore is neither empty nor ".". *)
Lemma underscored s :
  has_char "_" s = true -> s <> EmptyString /\ s <> "."%string.
Proof. intros H. split; intros ->; discriminate. Qed.

Lemma save_file_plain message user :
  has_char "/" (str_of_username (username user)) = false ->
  has_char "/" (save_file_of message user) = false
  /\ save_file_of message user <> EmptyString
  /\ save_file_of message user <> "."%string.
Proof.
  intros Hu. unfold save_file_of. split.
  - rewrite !has_char_app, Hu, !str_of_int_has_no_separator; auto.
  - apply underscored. rewrite !has_char_app. simpl. now rewrite orb_true_r.
Qed.

Lemma save_path_of_shape message user :
  has_char "/" (str_of_username (username user)) = false ->
  save_path_of message user
  = ("saved/" ++ ((str_of_username (username user) ++ "_"
                     ++ str_of_int (chat_id message))
                  ++ String "_" (str_of_int (message_id message)
                                 ++ String "." "jpg")))%string.
Proof.
  intros Hu. destruct (save_file_plain message user Hu) as [H1 [H2 H3]].
  change (save_path_of message user)
    with (path_join "saved" (save_file_of message user)).
  rewrite path_join_plain; auto; try discriminate.
  unfold save_file_of. simpl. do 6 f_equal.
  now rewrite !append_assoc_string.
Qed.

(** X7: for users whose printed name has no "/", the save path is a
    one-to-one function of the printed user name, the chat id and the
    message id: two messages get the same save path (so the same JobID) only
    when the three agree.  A user without a user name prints as [None]. *)
Theorem save_path_identifies_message :
  forall (message message' : Message) (user user' : User),
    has_char "/" (str_of_username (username user)) = false ->
    has_char "/" (str_of_username (username user')) = false ->
    (save_path_of message user = save_path_of message' user'
     <-> str_of_username (username user) = str_of_username (username user')
         /\ chat_id message = chat_id message'
         /\ message_id message = message_id message').
Proof.
  intros m m' u u' Hu Hu'. split.
  - rewrite !save_path_of_shape by auto. intros H. simpl in H.
    injection H as H.
    apply split_at_last in H.
    + destruct H as [H1 H2].
      apply (split_at_last "." _ _ "jpg" "jpg") in H2; auto.
      * destruct H2 as [H2 _]. apply str_of_int_inj in H2.
        change (str_of_username (username u) ++ "_" ++ str_of_int (chat_id m))%string
          with (str_of_username (username u)
                  ++ String "_" (str_of_int (chat_id m)))%string in H1.
        change (str_of_username (username u') ++ "_" ++ str_of_int (chat_id m'))%string
          with (str_of_username (username u')
                  ++ String "_" (str_of_int (chat_id m')))%string in H1.
        apply split_at_last in H1;
          try (apply str_of_int_has_no_separator; auto).
        destruct H1 as [H1 H3]. apply str_of_int_inj in H3. auto.
    + rewrite has_char_app, str_of_int_has_no_separator; auto.
    + rewrite has_char_app, str_of_int_has_no_separator; auto.
  - intros [Hn [Hc Hm]]. unfold save_path_of, save_file_of.
    now rewrite Hn, Hc, Hm.
Qed.

(** Messages 7 and 8 of the same chat by the same user get two save paths;
    a user named [./neko] gets the save paths of the user [neko], since the
    join drops the component ".". *)
Lemma save_path_identifies_message_witness :
  save_path_of (mkMessage (Some (mkUser (Some "neko"))) 7 (-1001) [])
    (mkUser (Some "neko"))
  <> save_path_of (mkMessage (Some (mkUser (Some "neko"))) 8 (-1001) [])
       (mkUser (Some "neko"))
  /\ save_path_of (mkMessage (Some (mkUser (Some "./neko"))) 7 (-1001) [])
       (mkUser (Some "./neko"))
     = save_path_of (mkMessage (Some (mkUser (Some "neko"))) 7 (-1001) [])
         (mkUser (Some "neko")).
Proof.
  split; [|reflexivity].
  intros H.
  apply (proj1 (save_path_identifies_message
                  (mkMessage (Some (mkUser (Some "neko"))) 7 (-1001) [])
                  (mkMessage (Some (mkUser (Some "neko"))) 8 (-1001) [])
                  (mkUser (Some "neko")) (mkUser (Some "neko"))
                  eq_refl eq_refl)) in H.
  destruct H as [_ [_ H]]. discriminate H.
Defined.

Lemma name_path_join dir file :
  has_char "/" dir = false -> dir <> EmptyString -> dir <> "."%string ->
  has_char "/" file = false -> file <> EmptyString -> file <> "."%string ->
  name (path_join dir file) = file.
Proof.
  intros. rewrite path_join_plain by auto. now apply name_joined.
Qed.

Lemma path_join_inj dir file file' :
  has_char "/" dir = false -> dir <> EmptyString -> dir <> "."%string ->
  has_char "/" file = false -> file <> EmptyString -> file <> "."%string ->
  has_char "/" file' = false -> file' <> EmptyString -> file' <> "."%string ->
  path_join dir file = path_join dir file' -> file = file'.
Proof.
  intros Hd Hd1 Hd2 Hf Hf1 Hf2 Hf' Hf1' Hf2'.
  rewrite !path_join_plain by auto. intros H.
  apply append_inj_l in H. now inversion H.
Qed.

Lemma save_file_name message user :
  has_char "/" (str_of_username (username user)) = false ->
  exists file,
    save_path_of message user = path_join SAVE_IMAGE_PATH file
    /\ has_char "/" file = false
    /\ file <> EmptyString /\ file <> "."%string.
Proof.
  intros Hu. exists (save_file_of message user). split; [reflexivity|].
  now apply save_file_plain.
Qed.

(** X8: for the path [save_photo] gives a message whose printed user name
    has no "/", [translate_manga_request] can only return the file of the
    same name under [TRANSLATED_IMAGE], and when it returns it has written
    that file; taking the name again gives back the save path.  So the
    backend calls of two messages return the same translated path only when
    the messages have the same save path. *)
Theorem translated_path_identifies_save_path :
  forall (api : MangaApi) (message message' : Message) (user user' : User),
    has_char "/" (str_of_username (username user)) = false ->
    has_char "/" (str_of_username (username user')) = false ->
    path_join SAVE_IMAGE_PATH (name (save_path_of message user))
    = save_path_of message user
    /\ (forall p,
           fst (translate_manga_request api (save_path_of message user))
           = Returned p ->
           p = path_join TRANSLATED_IMAGE (name (save_path_of message user))
           /\ exists body,
                snd (translate_manga_request api (save_path_of message user))
                = Some (p, body))
    /\ (forall p,
           fst (translate_manga_request api (save_path_of message user))
           = Returned p ->
           fst (translate_manga_request api (save_path_of message' user'))
           = Returned p ->
           save_path_of message user = save_path_of message' user').
Proof.
  intros api m m' u u' Hu Hu'.
  destruct (save_file_name m u Hu) as [f [Ef [Hf [Hf1 Hf2]]]].
  destruct (save_file_name m' u' Hu') as [f' [Ef' [Hf' [Hf1' Hf2']]]].
  assert (Hret : forall src p,
             fst (translate_manga_request api src) = Returned p ->
             p = translated_path_of src
             /\ exists body,
                  snd (translate_manga_request api src) = Some (p, body)).
  { intros src p. unfold translate_manga_request.
    destruct (open_src api src); [discriminate|].
    destruct (post_run api src) as [e|resp]; [discriminate|].
    destruct (task_id resp) as [e|id]; [discriminate|].
    destruct (get_result api id) as [e|resp']; [discriminate|].
    simpl. intros [= <-]. eauto. }
  assert (Hn : name (save_path_of m u) = f)
    by (rewrite Ef; apply name_path_join; auto; discriminate).
  assert (Hn' : name (save_path_of m' u') = f')
    by (rewrite Ef'; apply name_path_join; auto; discriminate).
  split; [|split].
  - now rewrite Hn, Ef.
  - intros p Hp. now apply Hret.
  - intros p Hp Hp'. destruct (Hret _ _ Hp) as [E _].
    destruct (Hret _ _ Hp') as [E' _]. rewrite E in E'.
    unfold translated_path_of in E'. rewrite Hn, Hn' in E'.
    apply path_join_inj in E'; auto; try discriminate.
    now rewrite Ef, Ef', E'.
Qed.

(** The translation of the photo in message 7 of chat -1001 by [neko]; the
    result request answers with status 500 and the body is written all the
    same. *)
Lemma translated_path_identifies_save_path_witness :
  "translated/neko_-1001_7.jpg"
  = path_join TRANSLATED_IMAGE
      (name (save_path_of
               (mkMessage (Some (mkUser (Some "neko"))) 7 (-1001) [])
               (mkUser (Some "neko"))))
  /\ exists body,
       snd (translate_manga_request
              (mkMangaApi (fun _ => None)
                 (fun _ => inr (mkResponse 200 (inr "42") ""))
                 (fun _ => inr (mkResponse 500 (inl "KeyError") "oops")))
              (save_path_of
                 (mkMessage (Some (mkUser (Some "neko"))) 7 (-1001) [])
                 (mkUser (Some "neko"))))
       = Some ("translated/neko_-1001_7.jpg", body).
Proof.
  exact (proj1 (proj2 (translated_path_identifies_save_path
           (mkMangaApi (fun _ => None)
              (fun _ => inr (mkResponse 200 (inr "42") ""))
              (fun _ => inr (mkResponse 500 (inl "KeyError") "oops")))
           (mkMessage (Some (mkUser (Some "neko"))) 7 (-1001) [])
           (mkMessage (Some (mkUser (Some "neko"))) 7 (-1001) [])
           (mkUser (Some "neko")) (mkUser (Some "neko")) eq_refl eq_refl))
         "translated/neko_-1001_7.jpg" eq_refl).
Defined.

(** ** The calls of one run on its replyer *)

Lemma perform_all_app a b r log :
  perform_all (a ++ b) r log
  = perform_all b (fst (perform_all a r log)) (snd (perform_all a r log)).
Proof.
  revert r log. induction a as [|c a IH]; intros r log; simpl; auto.
  destruct (perform c r log) as [r' log']. apply IH.
Qed.

Lemma shown_from_snoc sent c : forall log i cur,
  shown_from i sent (log ++ [c]) cur
  = shown_after (i + length log) sent c (shown_from i sent log cur).
Proof.
  induction log as [|x log IH]; intros i cur; simpl.
  - now rewrite Nat.add_0_r.
  - rewrite IH. f_equal. lia.
Qed.

Lemma shown_snoc sent c log :
  shown sent (log ++ [c]) = shown_after (length log) sent c (shown sent log).
Proof. unfold shown. now rewrite shown_from_snoc. Qed.

Lemma calls_ok_snoc strict c : forall calls before,
  calls_ok strict before (calls ++ [c])
  = calls_ok strict before calls && call_ok strict (before ++ calls) c.
Proof.
  induction calls as [|x calls IH]; intros before; simpl.
  - now rewrite app_nil_r, andb_true_r.
  - rewrite IH, <- app_assoc. simpl. now rewrite andb_assoc.
Qed.

Lemma progress_calls_snoc chat mid first later m :
  progress_calls chat mid first later ++ [edit_text 0 m]
  = progress_calls chat mid first (later ++ [m]).
Proof. unfold progress_calls. simpl. now rewrite map_app. Qed.

(** An edit of the progress message to a text it does not show. *)
Lemma run_inv_edit chat mid r log first later m0 m :
  MessageReplyer.last_text_message r = Some 0%nat ->
  calls_ok true [] log = true ->
  log = progress_calls chat mid first later ->
  shown 0 log = Some m0 -> text_eqb m0 m = false ->
  perform (edit_or_reply_message m) r log = (r, log ++ [edit_text 0 m])
  /\ calls_ok true [] (log ++ [edit_text 0 m]) = true
  /\ log ++ [edit_text 0 m] = progress_calls chat mid first (later ++ [m])
  /\ shown 0 (log ++ [edit_text 0 m]) = Some m.
Proof.
  intros Hl Hok Hlog Hs Hne. repeat split.
  - simpl. unfold MessageReplyer.edit_or_reply_message. now rewrite Hl.
  - rewrite calls_ok_snoc, Hok. simpl. now rewrite Hs, Hne.
  - rewrite Hlog. apply progress_calls_snoc.
  - rewrite shown_snoc. simpl. now rewrite Hs.
Qed.

(** The deletion of the progress message at line 236. *)
Lemma run_inv_delete r log m0 :
  MessageReplyer.last_text_message r = Some 0%nat ->
  calls_ok true [] log = true -> shown 0 log = Some m0 ->
  perform delete_last_message r log
  = (MessageReplyer.mk (MessageReplyer.chat_id r) (MessageReplyer.message_id r)
       None, log ++ [delete 0])
  /\ calls_ok true [] (log ++ [delete 0]) = true.
Proof.
  intros Hl Hok Hs. split.
  - simpl. unfold MessageReplyer.delete_last_message. now rewrite Hl.
  - rewrite calls_ok_snoc, Hok. simpl. now rewrite Hs.
Qed.

Lemma run_inv_poll readable chat mid r log first later s p :
  MessageReplyer.chat_id r = chat -> MessageReplyer.message_id r = mid ->
  calls_ok true [] log = true ->
  log = progress_calls chat mid first later ->
  MessageReplyer.last_text_message r = Some 0%nat ->
  shown 0 log = Some Started ->
  run_inv readable chat mid (fst (result_poll s p))
    (fst (perform_all (snd (result_poll s p)) r log))
    (snd (perform_all (snd (result_poll s p)) r log)).
Proof.
  intros Hc Hm Hok Hlog Hl Hs. unfold result_poll.
  destruct (dict_mem p (translate_result s)); cbn [fst snd perform_all].
  - destruct (run_inv_delete r log Started Hl Hok Hs) as [E Hok'].
    rewrite E. simpl. repeat split; auto.
    exists first, later. now rewrite Hlog.
  - repeat split; auto. exists first, later. auto.
Qed.

(** [await task], then lines 244-245. *)
Lemma run_inv_await readable chat mid r log first later objs h :
  MessageReplyer.chat_id r = chat -> MessageReplyer.message_id r = mid ->
  calls_ok true [] log = true ->
  log = progress_calls chat mid first later ++ [delete 0] ->
  MessageReplyer.last_text_message r = None ->
  run_inv readable chat mid
    (fst (open_translated readable (await_result objs h)))
    (fst (perform_all (snd (open_translated readable (await_result objs h)))
            r log))
    (snd (perform_all (snd (open_translated readable (await_result objs h)))
            r log)).
Proof.
  intros Hc Hm Hok Hlog Hl. unfold await_result.
  destruct (nth_error objs h) as [[src [[tp|exc]|]]|];
    unfold open_translated; cbn [fst snd].
  - destruct (readable tp) eqn:Er; rewrite ?app_nil_l;
      cbn [fst snd perform_all perform];
      unfold MessageReplyer.reply_photo; cbn [fst snd].
    + repeat split; auto.
      * rewrite calls_ok_snoc, Hok. reflexivity.
      * exists first, later, (send_photo chat tp mid).
        rewrite Hlog, Hc, Hm, <- app_assoc. split; eauto.
    + repeat split; auto. exists first, later. auto.
  - cbn [fst snd perform_all perform].
    unfold MessageReplyer.reply_message. cbn [fst snd].
    repeat split; auto.
    + rewrite calls_ok_snoc, Hok. reflexivity.
    + exists first, later, (send_message chat Failed mid).
      rewrite Hlog, Hc, Hm, <- app_assoc. split; auto.
  - cbn [fst snd perform_all]. repeat split; auto. exists first, later. auto.
  - cbn [fst snd perform_all]. repeat split; auto. exists first, later. auto.
Qed.

Lemma text_eqb_refl m : text_eqb m m = true.
Proof. destruct m; simpl; auto using Nat.eqb_refl. Qed.

Lemma run_inv_step readable chat mid s c r log :
  run_inv readable chat mid c r log ->
  run_inv readable chat mid (fst (run_resume_open readable s c))
    (fst (perform_all (snd (run_resume_open readable s c)) r log))
    (snd (perform_all (snd (run_resume_open readable s c)) r log)).
Proof.
  intros [Hc [Hm [Hok [first [later H]]]]]. unfold run_resume_open.
  destruct c as [p idx|p|p|h|tp| |]; cbn [run_resume].
  - destruct H as [Hlog [Hl Hs]].
    destruct (Nat.eqb_spec idx 0) as [->|Hidx].
    + destruct Hs as [[_ Hs]|[Hne _]]; [|congruence].
      replace (open_translated readable (result_poll s p))
        with (result_poll s p)
        by (unfold result_poll; now destruct (dict_mem p (translate_result s))).
      eapply run_inv_poll; eauto.
    + destruct Hs as [[H0 _]|[_ Hs]]; [congruence|].
      assert (Hstart : exists m0, shown 0 log = Some m0
                                  /\ text_eqb m0 Started = false)
        by (destruct Hs as [Hs|Hs]; rewrite Hs; eauto).
      destruct (translate_task_index p (translate_tasks s)) as [[|n]|].
      * destruct Hstart as [m0 [Hs0 Hne]].
        destruct (run_inv_edit chat mid r log first later m0 Started
                    Hl Hok Hlog Hs0 Hne) as [E [Hok' [Hlog' Hs']]].
        unfold open_translated.
        cbn [fst snd perform_all]. rewrite E. cbn [fst snd].
        repeat split; auto. exists first, (later ++ [Started]). auto.
      * destruct (Nat.eqb_spec idx (S n)) as [->|Hn].
        -- unfold open_translated.
           cbn [fst snd perform_all]. repeat split; auto.
           exists first, later. repeat split; auto.
        -- assert (Hne : exists m0, shown 0 log = Some m0
                                    /\ text_eqb m0 (Ahead (S n)) = false).
           { destruct Hs as [Hs|Hs]; rewrite Hs; eexists; split; eauto.
             simpl. now apply Nat.eqb_neq. }
           destruct Hne as [m0 [Hs0 Hne]].
           destruct (run_inv_edit chat mid r log first later m0 (Ahead (S n))
                       Hl Hok Hlog Hs0 Hne) as [E [Hok' [Hlog' Hs']]].
           unfold open_translated.
           cbn [fst snd perform_all]. rewrite E. cbn [fst snd].
           repeat split; auto. exists first, (later ++ [Ahead (S n)]).
           repeat split; auto.
      * destruct Hstart as [m0 [Hs0 Hne]].
        destruct (run_inv_edit chat mid r log first later m0 Started
                    Hl Hok Hlog Hs0 Hne) as [E [Hok' [Hlog' Hs']]].
        unfold open_translated.
        cbn [fst snd perform_all]. rewrite E. cbn [fst snd].
        repeat split; auto. exists first, (later ++ [Started]). auto.
  - destruct H as [Hlog [Hl Hs]].
    replace (open_translated readable (result_poll s p))
      with (result_poll s p)
      by (unfold result_poll; now destruct (dict_mem p (translate_result s))).
    eapply run_inv_poll; eauto.
  - destruct H as [Hlog Hl].
    destruct (dict_get p (translate_result s)) as [[task t]|].
    + eapply run_inv_await; eauto.
    + unfold open_translated. cbn [fst snd perform_all perform].
      unfold MessageReplyer.reply_message. cbn [fst snd].
      repeat split; auto.
      * rewrite calls_ok_snoc, Hok. reflexivity.
      * exists first, later, (send_message chat Failed mid).
        rewrite Hlog, Hc, Hm, <- app_assoc. split; auto.
  - destruct H as [Hlog Hl]. eapply run_inv_await; eauto.
  - contradiction.
  - unfold open_translated. cbn [fst snd perform_all].
    repeat split; auto. exists first, later. auto.
  - unfold open_translated. cbn [fst snd perform_all].
    repeat split; auto. exists first, later. auto.
Qed.

Lemma run_inv_run readable chat mid : forall snapshots c r log,
  run_inv readable chat mid c r log ->
  run_inv readable chat mid (fst (caller_run_open readable snapshots c))
    (fst (perform_all (snd (caller_run_open readable snapshots c)) r log))
    (snd (perform_all (snd (caller_run_open readable snapshots c)) r log)).
Proof.
  induction snapshots as [|s rest IH]; intros c r log Hinv;
    cbn [caller_run_open]; auto.
  pose proof (run_inv_step readable chat mid s c r log Hinv) as Hstep.
  destruct (run_resume_open readable s c) as [c' out]. cbn [fst snd] in Hstep.
  specialize (IH c' _ _ Hstep).
  destruct (caller_run_open readable rest c') as [c'' out'].
  cbn [fst snd] in *.
  now rewrite perform_all_app.
Qed.

(** X9: the Telegram calls of a run that reached the pending list, on its
    own replyer, whatever the shared state does meanwhile and whichever
    files [open] finds.  One text message is sent first and every later
    progress report edits that same message, each time to a text it does not
    already show; nothing else is sent while the caller waits.  When the
    result is found the progress message is deleted, once.  A run that has
    returned has then sent exactly one more thing, the translated photo,
    from a file [open] could open, or the "translation failed" text; a run
    that the exception of line 244 has ended has sent nothing after the
    deletion.  A run is never left in front of line 244, and no call edits
    or deletes a message that is not shown. *)
Theorem run_calls_protocol :
  forall (readable : Path -> bool) (chat mid : Z) (saved_file_path : Path)
         (s0 : sys) (snapshots : list sys),
    calls_ok true []
      (snd (run_calls readable chat mid saved_file_path s0 snapshots)) = true
    /\ exists first later,
         match fst (fst (run_calls readable chat mid saved_file_path s0
                           snapshots)) with
         | CQueue _ _ | CResult _ =>
             snd (run_calls readable chat mid saved_file_path s0 snapshots)
             = progress_calls chat mid first later
             /\ MessageReplyer.last_text_message
                  (snd (fst (run_calls readable chat mid saved_file_path s0
                               snapshots)))
                = Some 0%nat
         | CFetch _ | CAwait _ | CRaised =>
             snd (run_calls readable chat mid saved_file_path s0 snapshots)
             = progress_calls chat mid first later ++ [delete 0]
             /\ MessageReplyer.last_text_message
                  (snd (fst (run_calls readable chat mid saved_file_path s0
                               snapshots)))
                = None
         | COpen _ => False
         | CEnd =>
             exists final,
               snd (run_calls readable chat mid saved_file_path s0 snapshots)
               = progress_calls chat mid first later ++ [delete 0; final]
               /\ (final = send_message chat Failed mid
                   \/ exists translated_file_path,
                        readable translated_file_path = true
                        /\ final = send_photo chat translated_file_path mid)
         end.
Proof.
  intros readable chat mid p s0 snapshots. unfold run_calls, run_begin.
  cbn [negb]. unfold add_translate_task. cbn [fst snd].
  set (idx := (length (translate_tasks s0 ++ [p]) - 1)%nat).
  set (m := if (idx =? 0)%nat then Started else Queued idx).
  assert (Hinit : run_inv readable chat mid (CQueue p idx)
                    (MessageReplyer.mk chat mid (Some 0%nat))
                    [send_message chat m mid]).
  { repeat split; auto. exists m, []. repeat split; auto.
    unfold m. destruct (Nat.eqb_spec idx 0); auto. }
  pose proof (run_inv_run readable chat mid snapshots _ _ _ Hinit) as H.
  destruct (caller_run_open readable snapshots (CQueue p idx)) as [c out].
  cbn [fst snd] in *.
  change (perform_all ([edit_or_reply_message m] ++ out)
            (MessageReplyer.init chat mid) [])
    with (perform_all out (MessageReplyer.mk chat mid (Some 0%nat))
            [send_message chat m mid]).
  destruct H as [_ [_ [Hok [first [later H]]]]].
  split; auto. exists first, later.
  destruct c; try tauto.
Qed.

(** A run whose backend call returned a path that [open] cannot open: the
    progress message is sent, edited, deleted, and nothing follows. *)
Lemma run_ends_by_exception_of_open :
  run_calls (fun _ => false) 7 42 "saved/neko-1.jpg" init
    (states [Worker; Finish 0 (Returned "translated/neko-1.jpg"); Worker;
             Worker; Worker]
       (exec [Submit "saved/neko-1.jpg"] init))
  = (CRaised, MessageReplyer.mk 7 42 None,
     [send_message 7 Started 42; delete 0]).
Proof. vm_compute. reflexivity. Qed.

(** ** [MessageReplyer] on its own *)

Lemma replyer_step c r log :
  calls_ok false [] log = true ->
  (forall k, MessageReplyer.last_text_message r = Some k ->
             exists m, shown k log = Some m) ->
  calls_ok false [] (snd (perform c r log)) = true
  /\ (forall k,
         MessageReplyer.last_text_message (fst (perform c r log)) = Some k ->
         exists m, shown k (snd (perform c r log)) = Some m).
Proof.
  intros Hok Hlast.
  assert (Hsend : forall m,
             calls_ok false []
               (log ++ [send_message (MessageReplyer.chat_id r) m
                          (MessageReplyer.message_id r)]) = true
             /\ shown (length log)
                  (log ++ [send_message (MessageReplyer.chat_id r) m
                             (MessageReplyer.message_id r)]) = Some m).
  { intros m. rewrite calls_ok_snoc, Hok, shown_snoc. simpl.
    now rewrite Nat.eqb_refl. }
  destruct c as [m|m| |photo]; simpl.
  - destruct (Hsend m) as [H1 H2]. split; auto.
    intros k [= <-]. eauto.
  - unfold MessageReplyer.edit_or_reply_message.
    destruct (MessageReplyer.last_text_message r) as [sent|] eqn:El; simpl.
    + destruct (Hlast sent eq_refl) as [m0 Hs]. split.
      * rewrite calls_ok_snoc, Hok. simpl. now rewrite Hs.
      * intros k Hk. rewrite El in Hk. inversion Hk; subst.
        rewrite shown_snoc. simpl. rewrite Nat.eqb_refl, Hs. eauto.
    + destruct (Hsend m) as [H1 H2]. split; auto.
      intros k [= <-]. eauto.
  - unfold MessageReplyer.delete_last_message.
    destruct (MessageReplyer.last_text_message r) as [sent|] eqn:El; simpl.
    + destruct (Hlast sent eq_refl) as [m0 Hs]. split.
      * rewrite calls_ok_snoc, Hok. simpl. now rewrite Hs.
      * discriminate.
    + split; auto. intros k Hk. congruence.
  - split.
    + rewrite calls_ok_snoc, Hok. reflexivity.
    + intros k Hk. rewrite shown_snoc. simpl. auto.
Qed.

(** X10: whatever sequence of calls is made on a new [MessageReplyer], it
    never edits or deletes a message that is not shown (one it has not sent
    or has already deleted), and the message it keeps in
    [last_text_message] is one that is shown. *)
Theorem replyer_touches_only_shown_messages :
  forall (cs : list reply) (chat mid : Z),
    calls_ok false []
      (snd (perform_all cs (MessageReplyer.init chat mid) [])) = true
    /\ forall k,
         MessageReplyer.last_text_message
           (fst (perform_all cs (MessageReplyer.init chat mid) [])) = Some k ->
         exists m,
           shown k (snd (perform_all cs (MessageReplyer.init chat mid) []))
           = Some m.
Proof.
  intros cs chat mid.
  assert (Hgen : forall cs r log,
             calls_ok false [] log = true ->
             (forall k, MessageReplyer.last_text_message r = Some k ->
                        exists m, shown k log = Some m) ->
             calls_ok false [] (snd (perform_all cs r log)) = true
             /\ forall k,
                  MessageReplyer.last_text_message (fst (perform_all cs r log))
                  = Some k ->
                  exists m, shown k (snd (perform_all cs r log)) = Some m).
  { clear. induction cs as [|c cs IH]; intros r log Hok Hlast; simpl; auto.
    destruct (replyer_step c r log Hok Hlast) as [Hok' Hlast'].
    destruct (perform c r log) as [r' log']. apply IH; auto. }
  apply Hgen; [reflexivity | discriminate].
Qed.

(** ** Enqueue, then look up *)

Lemma list_index_snoc_new src l :
  ~ In src l -> list_index src (l ++ [src]) = Some (length l).
Proof.
  induction l as [|x r IH]; simpl; intros Hin.
  - now rewrite String.eqb_refl.
  - destruct (String.eqb_spec x src) as [->|Hne]; [tauto|].
    rewrite IH; auto.
Qed.

(** X11: [translate_task_index] right after [add_translate_task] gives back
    the index [add_translate_task] returned when the path was not pending
    already; when it was, at position [i], the lookup still gives [i],
    which is smaller than the returned index: the lookup is by first
    occurrence and the returned index is that of the new entry. *)
Theorem index_after_enqueue :
  forall (src : Path) (tasks : list Path),
    (~ In src tasks ->
     translate_task_index src (fst (add_translate_task src tasks))
     = Some (snd (add_translate_task src tasks)))
    /\ (forall i,
           translate_task_index src tasks = Some i ->
           translate_task_index src (fst (add_translate_task src tasks)) = Some i
           /\ (i < snd (add_translate_task src tasks))%nat).
Proof.
  intros src tasks. unfold add_translate_task, translate_task_index.
  cbn [fst snd].
  assert (Hlen : (length (tasks ++ [src]) - 1 = length tasks)%nat)
    by (rewrite length_app; simpl; lia).
  rewrite Hlen. split.
  - apply list_index_snoc_new.
  - intros i Hi. split; [now apply list_index_app_in|].
    clear Hlen. revert i Hi. induction tasks as [|x r IH]; simpl; intros i;
      [discriminate|].
    destruct (String.eqb x src); [intros [= <-]; lia|].
    destruct (list_index src r) as [j|]; simpl; [|discriminate].
    intros [= <-]. specialize (IH j eq_refl). lia.
Qed.

(** ** Which photo size is fetched *)

Lemma last_item_snoc {A : Type} (l : list A) x : last_item (l ++ [x]) = Some x.
Proof.
  induction l as [|y r IH]; simpl; auto.
  destruct (r ++ [x]) eqn:E; auto.
  destruct r; discriminate.
Qed.

(** X12: [save_photo] looks at the last photo size of the message only: the
    sizes before it are never fetched, and the result is the one for a
    message carrying that size alone.  With no size at all the result is
    [PhotoMissing] of the message id, provided the message has a sender. *)
Theorem save_photo_uses_last_size :
  forall (bot : Bot) (sender : User) (mid chat : Z)
         (sizes : list PhotoSize) (sized : PhotoSize),
    save_photo bot (mkMessage (Some sender) mid chat (sizes ++ [sized]))
    = save_photo bot (mkMessage (Some sender) mid chat [sized])
    /\ save_photo bot (mkMessage (Some sender) mid chat [])
       = inl (PhotoMissing mid).
Proof.
  intros bot sender mid chat sizes sized. split.
  - unfold save_photo. cbn [from_user photo]. rewrite last_item_snoc.
    reflexivity.
  - reflexivity.
Qed.

(** ** Draining the pending list *)

Lemma calm_repeat_worker o n : calm o (repeat Worker n).
Proof. unfold calm. induction n; simpl; constructor; auto. Qed.

Lemma calm_app o l1 l2 : calm o l1 -> calm o l2 -> calm o (l1 ++ l2).
Proof. unfold calm. intros H1 H2. apply Forall_app. auto. Qed.

Lemma exec_append l1 l2 s : exec (l1 ++ l2) s = exec l2 (exec l1 s).
Proof. revert s. induction l1 as [|a l1 IH]; intros s; simpl; auto. Qed.

Lemma timeout_nonneg (now : Q) : (now <= now + TRANSLATE_RESULT_TIMEOUT)%Q.
Proof. unfold TRANSLATE_RESULT_TIMEOUT. lra. Qed.

(** From the poll of an ended backend call, resumptions of the worker alone
    store the result and bring the worker back to its sleep; the pending
    list, the tasks and the clock are as they were. *)
Lemma publish_then_sleep s photo task :
  consistent s -> worker s = WPoll photo task ->
  handle_done (loop_tasks s) task = true ->
  exists n,
    worker (exec (repeat Worker n) s) = WSleep
    /\ translate_tasks (exec (repeat Worker n) s) = translate_tasks s
    /\ loop_tasks (exec (repeat Worker n) s) = loop_tasks s
    /\ perf_counter (exec (repeat Worker n) s) = perf_counter s
    /\ stored_since photo (perf_counter s) (exec (repeat Worker n) s).
Proof.
  intros Hc Hw Hd.
  set (now := perf_counter s).
  set (result' := dict_set photo (task, now) (translate_result s)).
  assert (E : step Worker s
              = mkSys (translate_tasks s) result' (loop_tasks s) now
                      (for_next (timeout_photos_of result' now)))
    by (simpl; unfold translater_worker; now rewrite Hw, Hd).
  assert (Hc' : consistent (step Worker s)) by now apply consistent_step.
  assert (Hst : stored_since photo now (step Worker s)).
  { rewrite E. exists task, now. simpl. split; [|lra].
    apply dict_get_set_same. }
  destruct (timeout_photos_of result' now) as [|q r] eqn:Et.
  - exists 1%nat. cbn [repeat exec]. rewrite E in *. simpl. auto.
  - exists (S (length (q :: r))). cbn [repeat exec].
    assert (Hw' : worker (step Worker s) = WReap (q :: r))
      by (rewrite E; reflexivity).
    pose proof (reap_pass (q :: r) (step Worker s) Hc' Hw') as Hpass.
    assert (Hclock : perf_counter (exec (repeat Worker (length (q :: r)))
                                        (step Worker s)) = now)
      by (rewrite Hpass, E; reflexivity).
    repeat split.
    + now rewrite Hpass.
    + rewrite Hpass, E. reflexivity.
    + rewrite Hpass, E. reflexivity.
    + exact Hclock.
    + apply stored_since_exec; auto. rewrite Hclock. apply timeout_nonneg.
Qed.

(** From any consistent state the worker can be brought to its sleep by its
    own resumptions and the end of the backend call it waits for. *)
Lemma settle o s :
  consistent s ->
  exists l,
    calm o l
    /\ worker (exec l s) = WSleep
    /\ translate_tasks (exec l s) = translate_tasks s
    /\ dispatched (exec l s) = dispatched s
    /\ perf_counter (exec l s) = perf_counter s
    /\ (forall photo task, worker s = WPoll photo task ->
                           stored_since photo (perf_counter s) (exec l s)).
Proof.
  intros Hc. pose proof (worker_fine s Hc) as Hok. unfold worker_ok in Hok.
  destruct (worker s) as [|photo task|r|task r|] eqn:Hw; try contradiction.
  - exists []. simpl. repeat split; auto. constructor. discriminate.
  - set (s1 := step (Finish task o) s).
    assert (Hc1 : consistent s1) by now apply consistent_step.
    assert (Hd1 : handle_done (loop_tasks s1) task = true).
    { destruct Hok as [res Hn]. unfold s1. simpl. unfold handle_done.
      clear - Hn. revert task Hn.
      induction (loop_tasks s) as [|t objs IH]; intros [|h] Hn; simpl in *;
        try discriminate.
      - inversion Hn; subst. unfold done. simpl. now destruct res.
      - now apply IH. }
    destruct (publish_then_sleep s1 photo task Hc1 Hw Hd1)
      as [n [H1 [H2 [H3 [H4 H5]]]]].
    exists (Finish task o :: repeat Worker n). cbn [exec]. fold s1.
    repeat split; auto.
    + constructor; [eauto | apply calm_repeat_worker].
    + unfold dispatched. rewrite H3. unfold s1. simpl.
      apply finish_task_src.
    + intros photo' task' [= <- <-]. exact H5.
  - destruct Hok as [Hne _].
    pose proof (reap_pass r s Hc Hw) as Hpass.
    exists (repeat Worker (length r)). rewrite Hpass. simpl.
    repeat split; auto; [apply calm_repeat_worker | discriminate].
Qed.

Lemma drain o : forall q s,
  consistent s -> worker s = WSleep -> translate_tasks s = q ->
  exists l,
    calm o l
    /\ worker (exec l s) = WSleep
    /\ translate_tasks (exec l s) = []
    /\ dispatched (exec l s) = dispatched s ++ q
    /\ perf_counter (exec l s) = perf_counter s
    /\ forall p, In p q -> stored_since p (perf_counter s) (exec l s).
Proof.
  induction q as [|photo q IH]; intros s Hc Hw Ht.
  - exists []. simpl. rewrite app_nil_r. repeat split; auto.
    + constructor.
    + contradiction.
  - set (s1 := step Worker s).
    assert (E1 : s1 = mkSys q (translate_result s)
                        (loop_tasks s ++ [mkTask photo None]) (perf_counter s)
                        (WPoll photo (length (loop_tasks s))))
      by (unfold s1; simpl; unfold translater_worker; now rewrite Hw, Ht).
    assert (Hc1 : consistent s1) by now apply consistent_step.
    destruct (settle o s1 Hc1) as [l1 [Hq1 [Hw1 [Ht1 [Hd1 [Hk1 Hs1]]]]]].
    assert (Hc2 : consistent (exec l1 s1)) by now apply consistent_exec.
    assert (Ht2 : translate_tasks (exec l1 s1) = q)
      by (rewrite Ht1, E1; reflexivity).
    destruct (IH (exec l1 s1) Hc2 Hw1 Ht2)
      as [l2 [Hq2 [Hw2 [Ht3 [Hd2 [Hk2 Hs2]]]]]].
    assert (Hk : perf_counter (exec l1 s1) = perf_counter s)
      by (rewrite Hk1, E1; reflexivity).
    exists (Worker :: l1 ++ l2). cbn [exec]. fold s1. rewrite exec_append.
    repeat split; auto.
    + constructor; [now left | now apply calm_app].
    + rewrite Hd2, Hd1, E1. unfold dispatched. simpl.
      rewrite map_app, <- app_assoc. reflexivity.
    + now rewrite Hk2.
    + intros p [<-|Hin].
      * apply stored_since_exec; auto.
        -- assert (Hps : perf_counter s1 = perf_counter s)
             by (rewrite E1; reflexivity).
           assert (Hws : worker s1 = WPoll photo (length (loop_tasks s)))
             by (rewrite E1; reflexivity).
           rewrite <- Hps. exact (Hs1 _ _ Hws).
        -- rewrite Hk2, Hk. apply timeout_nonneg.
      * rewrite <- Hk. now apply Hs2.
Qed.

(** ** First in, first out *)

(** C1: along every schedule from the initial state (any interleaving of
    submissions, worker resumptions, backend completions and clock ticks),
    the paths the backend was called on, in call order, followed by the
    paths still pending, in list order, are exactly the submitted paths in
    submission order; so the k-th backend call is on the k-th submitted
    path.  A step that makes a backend call makes it on the head of the
    pending list and removes that head, and no other step makes one.  And
    the worker does make these calls: resumed from its sleep with a pending
    list that is not empty it removes the head and starts the backend call
    on it; under any interleaving the head of the pending list is the next
    path the backend is called on, once the worker, not held by a backend
    call that has not ended, has been resumed [resumptions_to_dispatch]
    times; and from every reachable state, whether the backend calls return
    or raise, the worker's resumptions and the ends of the calls it waits
    for empty the pending list, with the backend called on the submitted
    paths, all of them, in submission order. *)
Theorem dispatch_order_is_submission_order :
  forall l : list action,
    dispatched (exec l init) ++ translate_tasks (exec l init) = submissions l
    /\ (forall k src,
           nth_error (dispatched (exec l init)) k = Some src ->
           nth_error (submissions l) k = Some src)
    /\ (forall a,
           dispatched (step a (exec l init)) = dispatched (exec l init)
           \/ exists photo rest,
                translate_tasks (exec l init) = photo :: rest
                /\ translate_tasks (step a (exec l init)) = rest
                /\ dispatched (step a (exec l init))
                   = dispatched (exec l init) ++ [photo])
    /\ (forall photo rest,
           worker (exec l init) = WSleep ->
           translate_tasks (exec l init) = photo :: rest ->
           translate_tasks (step Worker (exec l init)) = rest
           /\ loop_tasks (step Worker (exec l init))
              = loop_tasks (exec l init) ++ [mkTask photo None]
           /\ worker (step Worker (exec l init))
              = WPoll photo (length (loop_tasks (exec l init))))
    /\ (forall l2 next rest,
           translate_tasks (exec l init) = next :: rest ->
           (forall photo task,
               worker (exec l init) = WPoll photo task ->
               handle_done (loop_tasks (exec l init)) task = true) ->
           (resumptions_to_dispatch (exec l init) <= resumptions l2)%nat ->
           nth_error (dispatched (exec l2 (exec l init)))
             (length (dispatched (exec l init)))
           = Some next)
    /\ (forall o,
           exists l2,
             calm o l2
             /\ translate_tasks (exec l2 (exec l init)) = []
             /\ dispatched (exec l2 (exec l init)) = submissions l).
Proof.
  intros l. destruct (exec_queue l init) as [more [Hd Hq]].
  simpl in Hd, Hq. pose proof (reachable_consistent l) as Hc.
  split; [|split; [|split; [|split; [|split]]]].
  - now rewrite Hd, <- Hq.
  - intros k src Hk. rewrite Hq, <- Hd. rewrite nth_error_app1; auto.
    apply nth_error_Some. congruence.
  - intros a.
    destruct (step_queue a (exec l init)) as [[Hd1 _]|[photo [Hq1 [_ [_ Hd1]]]]];
      [now left | right].
    exists photo, (translate_tasks (step a (exec l init))). auto.
  - intros photo rest Hw Ht. simpl. unfold translater_worker.
    rewrite Hw, Ht. simpl. auto.
  - intros l2 next rest Ht Hdone Hlen.
    apply head_gets_dispatched; eauto.
  - intros o. set (s := exec l init) in *.
    destruct (settle o s Hc) as [l1 [Hq1 [Hw1 [Ht1 [Hd1 [Hk1 _]]]]]].
    assert (Hc1 : consistent (exec l1 s)) by now apply consistent_exec.
    destruct (drain o (translate_tasks s) (exec l1 s) Hc1 Hw1 Ht1)
      as [l2 [Hq2 [Hw2 [Ht2 [Hd2 _]]]]].
    exists (l1 ++ l2). rewrite exec_append. repeat split; auto.
    + now apply calm_app.
    + rewrite Hd2, Hd1, Hd, <- Hq. reflexivity.
Qed.

(** Three photos are submitted while the first backend call runs; the
    worker calls the backend on them in that order, also when the second
    call raises. *)
Lemma three_jobs_in_order :
  dispatched
    (exec [Submit "a.jpg"; Worker; Submit "b.jpg"; Submit "c.jpg";
           Finish 0 (Returned "translated/a.jpg"); Worker; Worker;
           Finish 1 (Raised "ReadTimeout"); Tick 700; Worker; Worker; Worker]
          init)
  = ["a.jpg"; "b.jpg"; "c.jpg"]
  /\ translate_tasks
       (exec [Submit "a.jpg"; Worker; Submit "b.jpg"; Submit "c.jpg";
              Finish 0 (Returned "translated/a.jpg"); Worker; Worker;
              Finish 1 (Raised "ReadTimeout"); Tick 700; Worker; Worker;
              Worker]
             init)
     = [].
Proof. split; vm_compute; reflexivity. Qed.

(** ** No pending job is stuck *)

(** X13: no pending job is stuck behind the others.  From every reachable
    state, and whether the backend calls return or raise, resumptions of
    the worker and the end of each backend call it waits for (no new
    submission, no time passing) lead to a state where the pending list is
    empty, the worker sleeps, the backend has been called on every job that
    was pending, in their order and on nothing else, and each of those jobs
    has an entry in [translate_result]. *)
Theorem pending_jobs_can_all_be_served :
  forall (l : list action) (o : outcome),
    exists l2,
      calm o l2
      /\ worker (exec l2 (exec l init)) = WSleep
      /\ translate_tasks (exec l2 (exec l init)) = []
      /\ dispatched (exec l2 (exec l init))
         = dispatched (exec l init) ++ translate_tasks (exec l init)
      /\ forall p, In p (translate_tasks (exec l init)) ->
                   dict_mem p (translate_result (exec l2 (exec l init))) = true.
Proof.
  intros l o. pose proof (reachable_consistent l) as Hc.
  set (s := exec l init) in *.
  destruct (settle o s Hc) as [l1 [Hq1 [Hw1 [Ht1 [Hd1 [Hk1 _]]]]]].
  assert (Hc1 : consistent (exec l1 s)) by now apply consistent_exec.
  destruct (drain o (translate_tasks s) (exec l1 s) Hc1 Hw1 Ht1)
    as [l2 [Hq2 [Hw2 [Ht2 [Hd2 [_ Hs2]]]]]].
  exists (l1 ++ l2). rewrite exec_append. repeat split; auto.
  - now apply calm_app.
  - now rewrite Hd2, Hd1.
  - intros p Hin. destruct (Hs2 p Hin) as [h [t [Hg _]]].
    unfold dict_mem. now rewrite Hg.
Qed.
